(** * The [unique_contact] provider function of terraform-provider-webitel

    A shallow embedding of [internal/provider/unique_contact_function.go]
    (method [UniqueContactFunction.Run]) and of the helpers it calls from
    [internal/provider/contact_resource.go] ([stripSpaces], [listToLabels]),
    followed by the properties of the aggregation it performs.

    Go strings are byte sequences: they are modelled by [string], one
    [ascii] per byte.  Go maps ([map[string]string], [map[string]contact],
    [map[string]bool]) are modelled by [gmap string _]; reading a missing
    key gives the zero value of the element type, as in Go. *)

From Stdlib Require Import ZArith Lia Ascii String List.
From stdpp Require Import base option list gmap strings.

Local Open Scope Z_scope.

(** ** Bytes and strings *)

Definition byteZ (b : ascii) : Z := Z.of_N (N_of_ascii b).

Definition between (lo hi x : Z) : bool := (lo <=? x) && (x <=? hi).

(** [s[n:]] *)
Fixpoint skipBytes (n : nat) (s : string) : string :=
  match n, s with
  | O, _ => s
  | S _, EmptyString => EmptyString
  | S k, String _ t => skipBytes k t
  end.

(** [s[:n]] *)
Fixpoint takeBytes (n : nat) (s : string) : string :=
  match n, s with
  | O, _ => EmptyString
  | S _, EmptyString => EmptyString
  | S k, String b t => String b (takeBytes k t)
  end.

Fixpoint filterBytes (p : ascii → bool) (s : string) : string :=
  match s with
  | EmptyString => EmptyString
  | String b t => if p b then String b (filterBytes p t) else filterBytes p t
  end.

Fixpoint allBytes (p : ascii → bool) (s : string) : bool :=
  match s with
  | EmptyString => true
  | String b t => p b && allBytes p t
  end.

(** ** Go's [unicode/utf8], [unicode] and [strings] packages, as far as
    [stripSpaces] and [destinationRegexp] use them *)

Definition utf8_RuneError : Z := 0xFFFD.

(** [utf8.DecodeRuneInString]: the first rune of [s] and its width in bytes;
    [(RuneError, 1)] on an encoding that is not valid UTF-8 (over-long forms
    and surrogates included), [(RuneError, 0)] on the empty string. *)
Definition utf8_DecodeRuneInString (s : string) : Z * nat :=
  match s with
  | EmptyString => (utf8_RuneError, 0%nat)
  | String b0 t =>
    let x := byteZ b0 in
    if x <? 0x80 then (x, 1%nat)
    else if between 0xC2 0xDF x then
      match t with
      | String b1 _ =>
        if between 0x80 0xBF (byteZ b1)
        then ((x - 0xC0) * 64 + (byteZ b1 - 0x80), 2%nat)
        else (utf8_RuneError, 1%nat)
      | _ => (utf8_RuneError, 1%nat)
      end
    else if between 0xE0 0xEF x then
      match t with
      | String b1 (String b2 _) =>
        let lo := if x =? 0xE0 then 0xA0 else 0x80 in
        let hi := if x =? 0xED then 0x9F else 0xBF in
        if between lo hi (byteZ b1) && between 0x80 0xBF (byteZ b2)
        then (((x - 0xE0) * 64 + (byteZ b1 - 0x80)) * 64 + (byteZ b2 - 0x80), 3%nat)
        else (utf8_RuneError, 1%nat)
      | _ => (utf8_RuneError, 1%nat)
      end
    else if between 0xF0 0xF4 x then
      match t with
      | String b1 (String b2 (String b3 _)) =>
        let lo := if x =? 0xF0 then 0x90 else 0x80 in
        let hi := if x =? 0xF4 then 0x8F else 0xBF in
        if between lo hi (byteZ b1) && between 0x80 0xBF (byteZ b2)
           && between 0x80 0xBF (byteZ b3)
        then ((((x - 0xF0) * 64 + (byteZ b1 - 0x80)) * 64
                + (byteZ b2 - 0x80)) * 64 + (byteZ b3 - 0x80), 4%nat)
        else (utf8_RuneError, 1%nat)
      | _ => (utf8_RuneError, 1%nat)
      end
    else (utf8_RuneError, 1%nat)
  end.

(** [for _, r := range s]: the runes of [s] in order, each with the bytes it
    was decoded from.  [skip] counts the bytes of the current rune that are
    still to be passed over. *)
Fixpoint rangeFrom (skip : nat) (s : string) : list (Z * string) :=
  match s with
  | EmptyString => []
  | String _ t =>
    match skip with
    | S k => rangeFrom k t
    | O =>
      let '(r, n) := utf8_DecodeRuneInString s in
      (r, takeBytes n s) :: rangeFrom (n - 1) t
    end
  end.

Definition rangeString (s : string) : list (Z * string) := rangeFrom 0 s.

(** [unicode.IsSpace]: the Unicode [White_Space] property. *)
Definition unicode_IsSpace (r : Z) : bool :=
  between 0x09 0x0D r || (r =? 0x20) || (r =? 0x85) || (r =? 0xA0)
  || (r =? 0x1680) || between 0x2000 0x200A r || between 0x2028 0x2029 r
  || (r =? 0x202F) || (r =? 0x205F) || (r =? 0x3000).

(** The loop of [strings.FieldsFunc]: [cur] is the field being read, if any
    ([start >= 0] in Go, the field being [s[start:end]]). *)
Fixpoint fieldsLoop (f : Z → bool) (rs : list (Z * string))
    (cur : option string) : list string :=
  match rs with
  | [] => match cur with Some fld => [fld] | None => [] end
  | (r, bytes) :: rest =>
    if f r then
      match cur with
      | Some fld => fld :: fieldsLoop f rest None
      | None => fieldsLoop f rest None
      end
    else fieldsLoop f rest (Some (default EmptyString cur +:+ bytes))
  end.

Definition strings_FieldsFunc (s : string) (f : Z → bool) : list string :=
  fieldsLoop f (rangeString s) None.

(** [strings.Fields]: split around runs of white space. *)
Definition strings_Fields (s : string) : list string :=
  strings_FieldsFunc s unicode_IsSpace.

(** [strings.Join] *)
Fixpoint strings_Join (elems : list string) (sep : string) : string :=
  match elems with
  | [] => EmptyString
  | [x] => x
  | x :: rest => x +:+ sep +:+ strings_Join rest sep
  end.

(** contact_resource.go:
    [func stripSpaces(in string) string {
       return strings.Join(strings.Fields(in), " ") }] *)
Definition stripSpaces (input : string) : string :=
  strings_Join (strings_Fields input) " ".

(** [var destinationRegexp = regexp.MustCompile(`\D`)]: the class [\D] is
    every rune outside ['0'..'9']. *)
Definition isDigitRune (r : Z) : bool := between 0x30 0x39 r.

Definition destinationRegexp (r : Z) : bool := negb (isDigitRune r).

(** [destinationRegexp.ReplaceAllString(src, repl)] for a [repl] without
    [$]: every rune matched by the one-rune pattern is replaced by [repl]. *)
Definition destinationRegexp_ReplaceAllString (src repl : string) : string :=
  foldr (λ '(r, bytes) acc,
           (if destinationRegexp r then repl else bytes) +:+ acc)
        EmptyString (rangeString src).


(** ** Terraform values at the function boundary *)

(** [types.String]: null, unknown, or a known value. *)
Inductive types_String :=
  | StringNull
  | StringUnknown
  | StringValue (s : string).

(** [(types.String).ValueString]: the known value, else [""]. *)
Definition ValueString (v : types_String) : string :=
  match v with StringValue s => s | _ => EmptyString end.

(** [attr.Value]: a [types.String], or a value of another type (kept with
    its [%v] rendering, which is all [listToLabels] looks at). *)
Inductive attr_Value :=
  | AttrString (s : types_String)
  | AttrOther (rendering : string).

(** [type UniqueContactModel struct]; a [types.List] is given by its
    [Elements()]. *)
Record UniqueContactModel := {
  NameField : types_String;
  CodeField : types_String;
  DestinationField : types_String;
  Labels : list attr_Value;
  Variables : list attr_Value;
  GroupByFields : list attr_Value
}.

(** Go's [(T, error)] results. *)
Inductive result (A : Type) :=
  | Ok (a : A)
  | Err (msg : string).
Arguments Ok {A} a.
Arguments Err {A} msg.

(** [if err != nil { return }] after each call: the error monad. *)
#[global] Instance result_ret : MRet result := λ A a, Ok a.
#[global] Instance result_bind : MBind result :=
  λ A B k r, match r with Ok a => k a | Err msg => Err msg end.

(** contact_resource.go, [listToLabels]. *)
Fixpoint listToLabels_from (labels : list string) (elems : list attr_Value)
    : result (list string) :=
  match elems with
  | [] => Ok labels
  | AttrString vString :: rest =>
    listToLabels_from (labels ++ [ValueString vString]) rest
  | AttrOther rendering :: _ =>
    Err ("invalid label value for " +:+ rendering)
  end.

Definition listToLabels (l : list attr_Value) : result (list string) :=
  listToLabels_from [] l.

(** ** The aggregation: unique_contact_function.go, [Run] *)

(** [v[k]] on a [map[string]string]: [""] when [k] is missing. *)
Definition field (v : gmap string string) (k : string) : string :=
  default EmptyString (v !! k).

(** The local struct [destination]. *)
Record Destination := {
  code : string;
  destination : string
}.

(** The local struct [contact].  Its [mu *sync.Mutex] is locked and unlocked
    by the one goroutine that runs the loop and guards nothing else, so it
    carries no state of the model. *)
Record contact := {
  c_name : string;
  c_destinations : list Destination;
  c_labels : list string;
  c_variables : gmap string string
}.

(** The zero value that [seen[key]] gives for a missing key. *)
Definition contact_zero : contact :=
  {| c_name := EmptyString; c_destinations := []; c_labels := [];
     c_variables := ∅ |}.

Definition seenAt (seen : gmap string contact) (key : string) : contact :=
  default contact_zero (seen !! key).

(** An object of [returnSchema()]: every attribute is a known value.
    [r_destinations] holds the elements handed to [types.SetValueMust], in
    the order they were appended. *)
Record returnObject := {
  r_name : string;
  r_destinations : list Destination;
  r_labels : list string;
  r_variables : gmap string string
}.

(** The two [tflog.Warn] calls of [Run] with their fields. *)
Inductive logEntry :=
  | WarnEmptyName (i : nat) (name : string)
  | WarnOverwrite (key : string).

Record loopState := {
  seen : gmap string contact;
  logged : list logEntry
}.

Record RunResponse := {
  Error : option string;
  Result : option (gmap string returnObject);
  Logged : list logEntry
}.

(** Line 201, ["+" + destinationRegexp.ReplaceAllString(raw, "")]: the
    [destination] of a row, from the raw value of its destination field. *)
Definition normalize (raw : string) : string :=
  "+" +:+ destinationRegexp_ReplaceAllString raw "".

Section Run.
Variable data : UniqueContactModel.
Variables groupByFields labelFields variableFields : list string.

(** Lines 170-175. *)
Definition keyFieldsOf (v : gmap string string) : list string :=
  fold_left (λ keyFields k,
               if decide (field v k ≠ EmptyString)
               then keyFields ++ [field v k] else keyFields)
            groupByFields [].

(** Lines 177-180. *)
Definition groupKey (v : gmap string string) (name : string) : string :=
  let keyFields := keyFieldsOf v in
  if decide (length keyFields ≠ 0%nat)
  then strings_Join keyFields "-" else name.

(** Lines 194-197. *)
Definition rowLabels (v : gmap string string) : list string :=
  fold_left (λ labels fld, labels ++ [field v fld]) labelFields [].

(** Lines 199-202. *)
Definition rowDestination (v : gmap string string) : Destination :=
  {| code := field v (ValueString (CodeField data));
     destination :=
       normalize (field v (ValueString (DestinationField data))) |}.

(** Lines 212-218. *)
Definition setVariables (v : gmap string string)
    (st : gmap string string * list logEntry)
    : gmap string string * list logEntry :=
  fold_left (λ '(vars, log) fld,
               (<[fld := field v fld]> vars,
                if decide (is_Some (vars !! fld))
                then log ++ [WarnOverwrite fld] else log))
            variableFields st.

(** Lines 163-221: one iteration of [for i, v := range elements]. *)
Definition loopBody (i : nat) (v : gmap string string) (st : loopState)
    : loopState :=
  let name := stripSpaces (field v (ValueString (NameField data))) in
  if decide (name = EmptyString) then
    {| seen := seen st; logged := logged st ++ [WarnEmptyName i name] |}
  else
    let key := groupKey v name in
    let seen1 :=
      match seen st !! key with
      | Some _ => seen st
      | None =>
        <[key := {| c_name := name; c_destinations := []; c_labels := [];
                    c_variables := ∅ |}]> (seen st)
      end in
    let labels := rowLabels v in
    let d := rowDestination v in
    let c := {| c_name := c_name (seenAt seen1 key);
                c_destinations := c_destinations (seenAt seen1 key) ++ [d];
                c_labels := c_labels (seenAt seen1 key) ++ labels;
                c_variables := c_variables (seenAt seen1 key) |} in
    let '(vars, log) := setVariables v (c_variables c, logged st) in
    {| seen := <[key := {| c_name := c_name c;
                           c_destinations := c_destinations c;
                           c_labels := c_labels c;
                           c_variables := vars |}]> seen1;
       logged := log |}.

(** Lines 162-222. *)
Fixpoint loop (i : nat) (elements : list (gmap string string))
    (st : loopState) : loopState :=
  match elements with
  | [] => st
  | v :: rest => loop (S i) rest (loopBody i v st)
  end.
End Run.

(** Lines 226-234. *)
Definition uniqueLabels (cl : list string) : list string :=
  fst (fold_left (λ '(labels, seenLabels) label,
                    (if default false (seenLabels !! label)
                     then labels else labels ++ [label],
                     <[label := true]> seenLabels))
                 cl ([], (∅ : gmap string bool))).

(** Lines 236-239. *)
Definition copyVariables (cv : gmap string string) : gmap string string :=
  map_fold (λ k variable variables, <[k := variable]> variables) ∅ cv.

(** Lines 241-256. *)
Definition uniqueDestinations (cd : list Destination) : list Destination :=
  fst (fold_left (λ '(destinations, seenDestination) dest,
                    (if default false (seenDestination !! destination dest)
                     then destinations else destinations ++ [dest],
                     <[destination dest := true]> seenDestination))
                 cd ([], (∅ : gmap string bool))).

(** Lines 258-263. *)
Definition contactObject (c : contact) : returnObject :=
  {| r_name := c_name c;
     r_destinations := uniqueDestinations (c_destinations c);
     r_labels := uniqueLabels (c_labels c);
     r_variables := copyVariables (c_variables c) |}.

(** Lines 224-264: [for n, c := range seen].  Every iteration writes the one
    key [n], so the order in which Go visits the map does not matter. *)
Definition contactsOf (seen : gmap string contact)
    : gmap string returnObject :=
  map_fold (λ n c contacts, <[n := contactObject c]> contacts) ∅ seen.

(** [Run], from line 124 on: [elements] (the [csv] list) and [data] (the
    [csv_mapping] object) are the arguments as lines 107-122 read them; a
    null or ill-typed argument ends [Run] with an error before that. *)
Definition Run (elements : list (gmap string string))
    (data : UniqueContactModel) : RunResponse :=
  match
    groupByFields ← listToLabels (GroupByFields data);
    labelFields ← listToLabels (Labels data);
    variableFields ← listToLabels (Variables data);
    mret (loop data groupByFields labelFields variableFields 0 elements
             {| seen := ∅; logged := [] |})
  with
  | Err msg => {| Error := Some msg; Result := None; Logged := [] |}
  | Ok st =>
    {| Error := None; Result := Some (contactsOf (seen st));
       Logged := logged st |}
  end.


(** ** Vocabulary of the statements *)

(** The byte class ['0'..'9']. *)
Definition isDigitByte (b : ascii) : bool := between 0x30 0x39 (byteZ b).

(** What [utf8.DecodeRuneInString] can return on a non-empty string: an ASCII
    byte as itself, an invalid byte as [RuneError] of width 1, or a rune of
    at least [0x80] made of two to four bytes that are all at least [0x80]. *)
Inductive decoded (b : ascii) (t : string) (r : Z) : nat → Prop :=
  | decoded_ascii : r = byteZ b → byteZ b < 0x80 → decoded b t r 1
  | decoded_invalid : r = utf8_RuneError → 0x80 ≤ byteZ b → decoded b t r 1
  | decoded_two b1 t1 :
      t = String b1 t1 → 0x80 ≤ r → 0x80 ≤ byteZ b → 0x80 ≤ byteZ b1 →
      decoded b t r 2
  | decoded_three b1 b2 t2 :
      t = String b1 (String b2 t2) → 0x800 ≤ r →
      0x80 ≤ byteZ b → 0x80 ≤ byteZ b1 → 0x80 ≤ byteZ b2 →
      decoded b t r 3
  | decoded_four b1 b2 b3 t3 :
      t = String b1 (String b2 (String b3 t3)) → 0x10000 ≤ r →
      0x80 ≤ byteZ b → 0x80 ≤ byteZ b1 → 0x80 ≤ byteZ b2 → 0x80 ≤ byteZ b3 →
      decoded b t r 4.

(** Keeping, of the elements that share a key, the first one only. *)
Fixpoint firstOccurrences {A} (key : A → string) (l : list A) : list A :=
  match l with
  | [] => []
  | x :: rest => x :: filter (λ y, key y ≠ key x) (firstOccurrences key rest)
  end.

(** The mapping [data] decodes to the three lists of field names. *)
Definition decodes (data : UniqueContactModel)
    (groupByFields labelFields variableFields : list string) : Prop :=
  listToLabels (GroupByFields data) = Ok groupByFields
  ∧ listToLabels (Labels data) = Ok labelFields
  ∧ listToLabels (Variables data) = Ok variableFields.

Section Groups.
Variable data : UniqueContactModel.
Variables groupByFields labelFields variableFields : list string.

(** The name that line 163 derives from a row, and the key that lines
    170-180 derive from it. *)
Definition recordName (v : gmap string string) : string :=
  stripSpaces (field v (ValueString (NameField data))).

Definition recordKey (v : gmap string string) : string :=
  groupKey groupByFields v (recordName v).

(** The rows of [elements] that are not skipped and get the key [k], in
    input order. *)
Definition group (k : string) (elements : list (gmap string string))
    : list (gmap string string) :=
  filter (λ v, recordName v ≠ EmptyString ∧ recordKey v = k) elements.

(** The map that [setVariables] returns. *)
Definition setVars (v : gmap string string) (vars : gmap string string)
    : gmap string string :=
  fold_left (λ vars fld, <[fld := field v fld]> vars) variableFields vars.

(** What one iteration stores under the key of [v], from what was there. *)
Definition mergeRow (v : gmap string string) (prev : option contact)
    : contact :=
  let c := default {| c_name := recordName v; c_destinations := [];
                      c_labels := []; c_variables := ∅ |} prev in
  {| c_name := c_name c;
     c_destinations := c_destinations c ++ [rowDestination data v];
     c_labels := c_labels c ++ rowLabels labelFields v;
     c_variables := setVars v (c_variables c) |}.

(** The contact accumulated from the rows [g] of one group. *)
Definition groupContact (g : list (gmap string string)) : option contact :=
  match g with
  | [] => None
  | first :: _ =>
    Some {| c_name := recordName first;
            c_destinations := rowDestination data <$> g;
            c_labels := g ≫= rowLabels labelFields;
            c_variables := fold_left (λ vars v, setVars v vars) g ∅ |}
  end.
End Groups.

(** The key of lines 170-180 as the specification words it: the non-empty
    values of the group-by fields joined with ["-"], or else the name. *)
Definition groupKey_spec (groupByFields : list string)
    (v : gmap string string) (name : string) : string :=
  match filter (λ x, x ≠ EmptyString) (map (field v) groupByFields) with
  | [] => name
  | vals => strings_Join vals "-"
  end.

(** ** Inputs of the worked example and of the acceptance test *)

Definition strings (l : list string) : list attr_Value :=
  map (λ s, AttrString (StringValue s)) l.

(** The example of the function's documentation: the rows that [csvdecode]
    yields and the mapping. *)
Definition example_row (name code dest foo_label foo_variable bar_variable
    : string) : gmap string string :=
  list_to_map [("name", name); ("code", code); ("destination", dest);
               ("foo_label", foo_label); ("foo_variable", foo_variable);
               ("bar_variable", bar_variable)].

Definition example_csv : list (gmap string string) :=
  [example_row "foo1" "1" "123" "local" "foo" "bar";
   example_row "foo1" "1" "456" "local" "foo" "bar";
   example_row "foo1" "2" "789" "other" "foo" "bar";
   example_row "bar1" "1" "123" "local" "foo" "bar"].

Definition example_mapping : UniqueContactModel :=
  {| NameField := StringValue "name";
     CodeField := StringValue "code";
     DestinationField := StringValue "destination";
     Labels := strings ["foo_label"];
     Variables := strings ["foo_variable"; "bar_variable"];
     GroupByFields := strings ["name"; "foo_variable"] |}.

(** [TestUniqueContactFunction_Known]: its rows and its mapping. *)
Definition test_row (name code dest account_id : string)
    : gmap string string :=
  list_to_map [("name", name); ("code", code); ("destination", dest);
               ("account_id", account_id)].

Definition test_csv : list (gmap string string) :=
  [test_row "foo1" "1" "ami-54d2a63b" "123";
   test_row "foo1" "1" "ami-54d2a63c" "321";
   test_row "foo1" "2" "ami-54d2a63b" "123";
   test_row "bar1" "m3.large" "ami-54d2a63b" "123"].

Definition test_mapping : UniqueContactModel :=
  {| NameField := StringValue "name";
     CodeField := StringValue "code";
     DestinationField := StringValue "destination";
     Labels := strings ["code"; "destination"];
     Variables := strings ["name"];
     GroupByFields := strings ["name"; "account_id"] |}.

(** What the example documents as its output. *)
Definition example_variables : gmap string string :=
  {[ "foo_variable" := "foo"; "bar_variable" := "bar" ]}.

Definition example_result : gmap string returnObject :=
  {[ "foo1-foo" :=
       {| r_name := "foo1";
          r_destinations :=
            [ {| code := "1"; destination := "+123" |};
              {| code := "1"; destination := "+456" |};
              {| code := "2"; destination := "+789" |} ];
          r_labels := ["local"; "other"];
          r_variables := example_variables |};
     "bar1-foo" :=
       {| r_name := "bar1";
          r_destinations := [ {| code := "1"; destination := "+123" |} ];
          r_labels := ["local"];
          r_variables := example_variables |} ]}.

(** What [TestUniqueContactFunction_Known] expects. *)
Definition test_result : gmap string returnObject :=
  {[ "bar1-123" :=
       {| r_name := "bar1";
          r_destinations :=
            [ {| code := "m3.large"; destination := "+54263" |} ];
          r_labels := ["m3.large"; "ami-54d2a63b"];
          r_variables := {[ "name" := "bar1" ]} |};
     "foo1-123" :=
       {| r_name := "foo1";
          r_destinations := [ {| code := "1"; destination := "+54263" |} ];
          r_labels := ["1"; "ami-54d2a63b"; "2"];
          r_variables := {[ "name" := "foo1" ]} |};
     "foo1-321" :=
       {| r_name := "foo1";
          r_destinations := [ {| code := "1"; destination := "+54263" |} ];
          r_labels := ["1"; "ami-54d2a63c"];
          r_variables := {[ "name" := "foo1" ]} |} ]}.

(** A third input, with what the two above lack: a row without a usable
    name, two names in one group, a variable that is overwritten and one
    that the last row lacks, labels that repeat, destinations that differ
    in punctuation only, and destinations without digits. *)
Definition blank_name : string :=
  String "009" (String "194" (String "160" " ")).

Definition scenario_csv : list (gmap string string) :=
  [ list_to_map [("name", "Alice  A"); ("id", "7"); ("code", "1");
                 ("destination", "123"); ("l1", "a"); ("l2", "b");
                 ("x", "v1"); ("y", "w1")];
    list_to_map [("name", blank_name); ("id", "7"); ("code", "5");
                 ("destination", "555"); ("l1", "z"); ("l2", "z");
                 ("x", "v0"); ("y", "w0")];
    list_to_map [("name", "Bob"); ("id", "7"); ("code", "2");
                 ("destination", "1-2-3"); ("l1", "a"); ("l2", "c");
                 ("x", "v2")];
    list_to_map [("name", "Carol"); ("id", "8"); ("code", "9");
                 ("destination", "n/a"); ("l1", "a"); ("l2", "a");
                 ("x", "v3"); ("y", "w3")];
    list_to_map [("name", "Dave"); ("id", "8"); ("code", "10");
                 ("l1", "a"); ("l2", "a"); ("x", "v4"); ("y", "w4")] ].

Definition scenario_mapping : UniqueContactModel :=
  {| NameField := StringValue "name";
     CodeField := StringValue "code";
     DestinationField := StringValue "destination";
     Labels := strings ["l1"; "l2"];
     Variables := strings ["x"; "y"];
     GroupByFields := strings ["id"] |}.

Definition scenario_result : gmap string returnObject :=
  {[ "7" :=
       {| r_name := "Alice A";
          r_destinations := [ {| code := "1"; destination := "+123" |} ];
          r_labels := ["a"; "b"; "c"];
          r_variables := {[ "x" := "v2"; "y" := "" ]} |};
     "8" :=
       {| r_name := "Carol";
          r_destinations := [ {| code := "9"; destination := "+" |} ];
          r_labels := ["a"];
          r_variables := {[ "x" := "v4"; "y" := "w4" ]} |} ]}.

(** ** Vocabulary for [stripSpaces] *)

(** [s] is empty or starts with a byte that is not a UTF-8 continuation
    byte ([0x80..0xBF]). *)
Definition startsClean (s : string) : bool :=
  match s with
  | EmptyString => true
  | String c _ => negb (between 0x80 0xBF (byteZ c))
  end.

(** No rune of [s] is white space. *)
Definition noSpace (s : string) : Prop :=
  Forall (λ c, unicode_IsSpace c.1 = false) (rangeString s).

(** The lists [ls] one after the other, with [sep] between two of them. *)
Fixpoint interleave {A} (sep : A) (ls : list (list A)) : list A :=
  match ls with
  | [] => []
  | [l] => l
  | l :: rest => l ++ sep :: interleave sep rest
  end.

(** ** contact_resource.go: [mapToVariables] and [contactToTF] *)

(** [mapToVariables]: [elems] is [m.Elements()] in the order in which
    [range] visits that map, an order that Go leaves open. *)
Fixpoint mapToVariables_from (variables : gmap string string)
    (elems : list (string * attr_Value)) : result (gmap string string) :=
  match elems with
  | [] => Ok variables
  | (k, AttrString vString) :: rest =>
    mapToVariables_from (<[k := ValueString vString]> variables) rest
  | (k, AttrOther rendering) :: _ =>
    Err ("invalid variable value for " +:+ k +:+ ": " +:+ rendering)
  end.

Definition mapToVariables (elems : list (string * attr_Value))
    : result (gmap string string) :=
  mapToVariables_from ∅ elems.

(** The fields of [models.WebitelContactsContact] that [contactToTF]
    reads.  The type is declared in the API client library: the pointers
    that [contactToTF] follows without a check ([in.Name], the elements of
    the [Data] slices, [v.Type]) are taken to be set, a [nil] list
    ([in.Labels], [in.Variables], [in.Phones]) is [None], and the value of a
    variable is kept as its [%v] rendering. *)
Record apiVariable := {
  in_Key : string;
  in_Value : string
}.

Record apiPhone := {
  in_Type_ID : string;
  in_Number : string
}.

Record apiContact := {
  in_ID : string;
  in_Etag : string;
  in_Name_CommonName : string;
  in_About : string;
  in_Labels : option (list string);
  in_Variables : option (list apiVariable);
  in_Phones : option (list apiPhone)
}.

(** [type ContactResourcePhones struct] *)
Record ContactResourcePhones := {
  p_Code : types_String;
  p_Destination : types_String
}.

(** [type ContactResourceModel struct]; a null list, map or set is
    [None]. *)
Record ContactResourceModel := {
  m_ID : types_String;
  m_ETag : types_String;
  m_Name : types_String;
  m_About : types_String;
  m_Labels : option (list attr_Value);
  m_Variables : option (gmap string attr_Value);
  m_Phones : option (list ContactResourcePhones)
}.

(** [contactToTF]; the zero value of [types.String], [types.List],
    [types.Map] and [types.Set] is null. *)
Definition contactToTF (c : apiContact) : ContactResourceModel :=
  {| m_ID := StringValue (in_ID c);
     m_ETag := StringValue (in_Etag c);
     m_Name := StringValue (in_Name_CommonName c);
     m_About :=
       if decide (in_About c ≠ EmptyString)
       then StringValue (in_About c) else StringNull;
     m_Labels :=
       match in_Labels c with
       | Some data =>
         Some (fold_left
                 (λ labels v, labels ++ [AttrString (StringValue v)])
                 data [])
       | None => None
       end;
     m_Variables :=
       match in_Variables c with
       | Some data =>
         Some (fold_left
                 (λ variables v,
                    <[in_Key v := AttrString (StringValue (in_Value v))]>
                      variables)
                 data ∅)
       | None => None
       end;
     m_Phones :=
       match in_Phones c with
       | Some data =>
         Some (fold_left
                 (λ phones v,
                    phones ++ [ {| p_Code := StringValue (in_Type_ID v);
                                   p_Destination :=
                                     StringValue (in_Number v) |} ])
                 data [])
       | None => None
       end |}.

(** ** Vocabulary for the log of [Run] *)

(** The warnings of the row [v] of index [i], read after the rows
    [before]: one for its empty name, or else one for every variable field
    when its group has a row already. *)
Definition rowWarnings (data : UniqueContactModel)
    (groupByFields variableFields : list string) (i : nat)
    (v : gmap string string) (before : list (gmap string string))
    : list logEntry :=
  if decide (recordName data v = EmptyString) then [WarnEmptyName i ""]
  else if decide (group data groupByFields
                        (recordKey data groupByFields v) before = [])
       then []
       else WarnOverwrite <$> variableFields.

(** ** One more input: two rows whose names differ in white space only,
    grouped by the name field *)

Definition names_csv : list (gmap string string) :=
  [ list_to_map [("name", "Ann  B"); ("code", "1"); ("destination", "100")];
    list_to_map [("name", "Ann B"); ("code", "1"); ("destination", "200")] ].

Definition names_mapping : UniqueContactModel :=
  {| NameField := StringValue "name";
     CodeField := StringValue "code";
     DestinationField := StringValue "destination";
     Labels := strings [];
     Variables := strings [];
     GroupByFields := strings ["name"] |}.

Definition names_result : gmap string returnObject :=
  {[ "Ann  B" :=
       {| r_name := "Ann B";
          r_destinations := [ {| code := "1"; destination := "+100" |} ];
          r_labels := [];
          r_variables := ∅ |};
     "Ann B" :=
       {| r_name := "Ann B";
          r_destinations := [ {| code := "1"; destination := "+200" |} ];
          r_labels := [];
          r_variables := ∅ |} ]}.

(** The contact of the group ["7"] of the scenario. *)
Definition scenario_contact_7 : returnObject :=
  {| r_name := "Alice A";
     r_destinations := [ {| code := "1"; destination := "+123" |} ];
     r_labels := ["a"; "b"; "c"];
     r_variables := {[ "x" := "v2"; "y" := "" ]} |}.

(** * Properties *)

(** ** Decoding and scanning strings *)

Lemma byteZ_range b : 0 ≤ byteZ b < 256.
Proof.
  unfold byteZ. pose proof (N_ascii_bounded b). lia.
Qed.

Lemma byteZ_inj a b : byteZ a = byteZ b → a = b.
Proof.
  unfold byteZ. intros H.
  rewrite <- (ascii_N_embedding a), <- (ascii_N_embedding b).
  f_equal. lia.
Qed.

Ltac zbool :=
  unfold between in *;
  repeat match goal with
  | H : _ && _ = true |- _ => apply andb_true_iff in H; destruct H
  | H : _ && _ = false |- _ => apply andb_false_iff in H
  | H : (_ <? _) = true |- _ => apply Z.ltb_lt in H
  | H : (_ <? _) = false |- _ => apply Z.ltb_ge in H
  | H : (_ <=? _) = true |- _ => apply Z.leb_le in H
  | H : (_ <=? _) = false |- _ => apply Z.leb_gt in H
  | H : (_ =? _) = true |- _ => apply Z.eqb_eq in H
  | H : (_ =? _) = false |- _ => apply Z.eqb_neq in H
  end.


Lemma DecodeRuneInString_decoded b t r n :
  utf8_DecodeRuneInString (String b t) = (r, n) → decoded b t r n.
Proof.
  pose proof (byteZ_range b) as Hb.
  unfold utf8_DecodeRuneInString.
  repeat match goal with
  | |- context [if ?c then _ else _] => destruct c eqn:?
  | |- context [match ?s with EmptyString => _ | String _ _ => _ end] =>
    destruct s
  end;
  intros [= <- <-]; zbool;
  first [ by (apply decoded_ascii; [done | lia])
        | by (apply decoded_invalid; [done | lia])
        | by (eapply decoded_two; [done | unfold utf8_RuneError; lia ..])
        | by (eapply decoded_three; [done | unfold utf8_RuneError; lia ..])
        | by (eapply decoded_four; [done | unfold utf8_RuneError; lia ..]) ].
Qed.

Lemma decoded_width b t r n :
  decoded b t r n → (1 ≤ n ≤ String.length (String b t))%nat.
Proof. destruct 1; subst; simpl; lia. Qed.

Lemma skipBytes_length n s :
  String.length (skipBytes n s) = (String.length s - n)%nat.
Proof.
  revert s; induction n as [|n IH]; intros [|b t]; simpl; auto with lia.
Qed.

Lemma append_cons b s t : String b s +:+ t = String b (s +:+ t).
Proof. reflexivity. Qed.

Lemma append_nil_l s : EmptyString +:+ s = s.
Proof. reflexivity. Qed.

Lemma append_nil_r s : s +:+ EmptyString = s.
Proof. induction s as [|b t IH]; [done|]. by rewrite append_cons, IH. Qed.

Lemma append_assoc s t u : (s +:+ t) +:+ u = s +:+ t +:+ u.
Proof. induction s as [|b s IH]; [done|]. by rewrite !append_cons, IH. Qed.

Lemma take_skip_bytes n s : takeBytes n s +:+ skipBytes n s = s.
Proof.
  revert s; induction n as [|n IH]; intros [|b t]; simpl; auto.
  by rewrite append_cons, IH.
Qed.

Lemma filterBytes_app p s1 s2 :
  filterBytes p (s1 +:+ s2) = filterBytes p s1 +:+ filterBytes p s2.
Proof.
  induction s1 as [|b t IH]; [done|].
  rewrite append_cons. simpl. destruct (p b); by rewrite IH, ?append_cons.
Qed.

Lemma rangeFrom_skip k s : rangeFrom k s = rangeString (skipBytes k s).
Proof.
  revert k; induction s as [|b t IH]; intros [|k]; simpl; auto.
Qed.

Lemma rangeString_cons b t r n :
  utf8_DecodeRuneInString (String b t) = (r, n) →
  rangeString (String b t)
  = (r, takeBytes n (String b t)) :: rangeString (skipBytes n (String b t)).
Proof.
  intros Hd. unfold rangeString at 1. cbn [rangeFrom]. rewrite Hd.
  apply DecodeRuneInString_decoded, decoded_width in Hd.
  rewrite rangeFrom_skip. destruct n as [|n]; [lia|].
  by replace (S n - 1)%nat with n by lia.
Qed.

(** Induction on a string rune by rune, the way [range] walks it. *)
Lemma string_rune_ind (P : string → Prop) :
  P EmptyString →
  (∀ b t r n,
     utf8_DecodeRuneInString (String b t) = (r, n) →
     decoded b t r n →
     P (skipBytes n (String b t)) → P (String b t)) →
  ∀ s, P s.
Proof.
  intros Hnil Hstep s.
  remember (String.length s) as len eqn:Hlen.
  revert s Hlen. induction len as [len IH] using lt_wf_ind.
  intros [|b t] Hlen; [done|].
  destruct (utf8_DecodeRuneInString (String b t)) as [r n] eqn:Hd.
  pose proof (DecodeRuneInString_decoded _ _ _ _ Hd) as Hdec.
  pose proof (decoded_width _ _ _ _ Hdec) as Hw.
  eapply Hstep; [done..|].
  eapply IH; [|done]. rewrite skipBytes_length. lia.
Qed.

(** The runes that [range] yields carry all the bytes of the string, in
    order: the walk never stops early. *)
Lemma rangeString_bytes s :
  foldr (λ c acc, c.2 +:+ acc) EmptyString (rangeString s) = s.
Proof.
  induction s as [|b t r n Hd Hdec IH] using string_rune_ind; [done|].
  rewrite (rangeString_cons _ _ _ _ Hd). cbn [foldr snd].
  rewrite IH. apply take_skip_bytes.
Qed.

Lemma isDigit_high x : 0x80 ≤ x → between 0x30 0x39 x = false.
Proof. intros. unfold between. apply andb_false_iff. lia. Qed.

(** Removing the runes of class [\D] keeps exactly the bytes ['0'..'9']. *)
Lemma ReplaceAllString_digits s :
  destinationRegexp_ReplaceAllString s "" = filterBytes isDigitByte s.
Proof.
  unfold destinationRegexp_ReplaceAllString.
  induction s as [|b t r n Hd Hdec IH] using string_rune_ind; [done|].
  rewrite (rangeString_cons _ _ _ _ Hd). cbn [foldr]. rewrite IH.
  rewrite <- (take_skip_bytes n (String b t)) at 3.
  rewrite filterBytes_app. f_equal.
  unfold destinationRegexp, isDigitRune.
  destruct Hdec; subst; cbn [takeBytes filterBytes]; unfold isDigitByte;
    rewrite ?(isDigit_high (byteZ _)) by done;
    rewrite ?(isDigit_high r) by lia;
    rewrite ?(isDigit_high utf8_RuneError) by done; try done.
  by destruct (between 48 57 (byteZ b)).
Qed.

Lemma filterBytes_all p s : allBytes p (filterBytes p s) = true.
Proof.
  induction s as [|b t IH]; simpl; auto.
  destruct (p b) eqn:E; simpl; by rewrite ?E.
Qed.

Lemma filterBytes_id p s : allBytes p s = true → filterBytes p s = s.
Proof.
  induction s as [|b t IH]; simpl; auto.
  intros [-> ?]%andb_true_iff. by rewrite IH.
Qed.

Lemma filterBytes_none p s :
  allBytes (λ b, negb (p b)) s = true → filterBytes p s = EmptyString.
Proof.
  induction s as [|b t IH]; simpl; auto.
  intros [Hb ?]%andb_true_iff. apply negb_true_iff in Hb. rewrite Hb. auto.
Qed.

Lemma append_empty s t : s +:+ t = EmptyString → s = EmptyString.
Proof. by destruct s. Qed.

Lemma rangeString_chunks s :
  Forall (λ c, c.2 ≠ EmptyString) (rangeString s).
Proof.
  induction s as [|b t r n Hd Hdec IH] using string_rune_ind;
    [by constructor|].
  rewrite (rangeString_cons _ _ _ _ Hd). constructor; [|done].
  apply decoded_width in Hdec. by destruct n; [lia|].
Qed.

Lemma fieldsLoop_fields f rs cur :
  Forall (λ c, c.2 ≠ EmptyString) rs →
  (∀ fld, cur = Some fld → fld ≠ EmptyString) →
  Forall (λ fld, fld ≠ EmptyString) (fieldsLoop f rs cur).
Proof.
  intros Hrs. revert cur.
  induction Hrs as [|[r bytes] rs Hne _ IH]; intros cur Hcur; simpl.
  - destruct cur; repeat constructor; auto.
  - simpl in Hne. destruct (f r).
    + destruct cur; [constructor; auto|]; by apply IH.
    + apply IH. intros fld [= <-]. destruct cur as [c|]; simpl.
      * intros ?%append_empty. by eapply Hcur.
      * done.
Qed.

Lemma fieldsLoop_nil f rs cur :
  fieldsLoop f rs cur = [] ↔ cur = None ∧ Forall (λ c, f c.1 = true) rs.
Proof.
  revert cur. induction rs as [|[r bytes] rs IH]; intros cur; simpl.
  - destruct cur; split; try done; by intros [? _].
  - destruct (f r) eqn:Hf.
    + destruct cur.
      * split; [done | by intros [? _]].
      * rewrite IH. split; intros [? Hrs]; split; auto.
        by inversion Hrs.
    + rewrite IH. split; [by intros [? _]|].
      intros [_ Hrs]. inversion Hrs; simpl in *; congruence.
Qed.

Lemma strings_Join_empty elems sep :
  Forall (λ fld, fld ≠ EmptyString) elems →
  strings_Join elems sep = EmptyString ↔ elems = [].
Proof.
  intros Hne. split; [|by intros ->].
  destruct elems as [|x [|y l]]; simpl; [done|..].
  - intros ->. by inversion Hne.
  - intros ->%append_empty. by inversion Hne.
Qed.

(** [stripSpaces] gives [""] exactly on the strings whose runes are all
    white space (the empty string among them). *)
Lemma stripSpaces_empty s :
  stripSpaces s = EmptyString
  ↔ Forall (λ c, unicode_IsSpace c.1 = true) (rangeString s).
Proof.
  unfold stripSpaces, strings_Fields, strings_FieldsFunc.
  rewrite strings_Join_empty, fieldsLoop_nil; [tauto|].
  apply fieldsLoop_fields; [apply rangeString_chunks | done].
Qed.

(** ** The loops of [Run] *)

Lemma fold_left_snoc_map {A B} (f : A → B) l acc :
  fold_left (λ acc x, acc ++ [f x]) l acc = acc ++ map f l.
Proof.
  revert acc; induction l as [|x l IH]; intros acc; simpl.
  - by rewrite app_nil_r.
  - by rewrite IH, <- app_assoc.
Qed.

Lemma rowLabels_map labelFields v :
  rowLabels labelFields v = map (field v) labelFields.
Proof. apply (fold_left_snoc_map (field v)). Qed.

Lemma keyFields_from groupByFields v acc :
  fold_left (λ keyFields k,
               if decide (field v k ≠ EmptyString)
               then keyFields ++ [field v k] else keyFields)
            groupByFields acc
  = acc ++ filter (λ x, x ≠ EmptyString) (map (field v) groupByFields).
Proof.
  revert acc. induction groupByFields as [|k l IH]; intros acc; simpl.
  - by rewrite app_nil_r.
  - rewrite IH, filter_cons. case_decide; [|done].
    by rewrite <- app_assoc.
Qed.

Lemma keyFieldsOf_filter groupByFields v :
  keyFieldsOf groupByFields v
  = filter (λ x, x ≠ EmptyString) (map (field v) groupByFields).
Proof. apply keyFields_from. Qed.

Section Loop.
Variable data : UniqueContactModel.
Variables groupByFields labelFields variableFields : list string.

Local Abbreviation body :=
  (loopBody data groupByFields labelFields variableFields).
Local Abbreviation run :=
  (loop data groupByFields labelFields variableFields).
Local Abbreviation name_of := (recordName data).
Local Abbreviation key_of := (recordKey data groupByFields).
Local Abbreviation group_of := (group data groupByFields).
Local Abbreviation set_vars := (setVars variableFields).
Local Abbreviation set_variables := (setVariables variableFields).
Local Abbreviation merge := (mergeRow data labelFields variableFields).
Local Abbreviation contact_of :=
  (groupContact data labelFields variableFields).

Lemma setVariables_fst v vars log :
  (set_variables v (vars, log)).1 = set_vars v vars.
Proof.
  unfold setVariables, setVars.
  revert vars log. induction variableFields as [|f l IH]; intros; [done|].
  simpl. apply IH.
Qed.

(** The log only grows. *)
Lemma setVariables_snd v vars log :
  ∃ more, (set_variables v (vars, log)).2 = log ++ more.
Proof.
  unfold setVariables.
  revert vars log. induction variableFields as [|f l IH]; intros; simpl.
  - exists []. by rewrite app_nil_r.
  - destruct (IH (<[f:=field v f]> vars)
               (if decide (is_Some (vars !! f))
                then log ++ [WarnOverwrite f] else log)) as [more ->].
    case_decide; [|by eauto]. rewrite <- app_assoc. by eauto.
Qed.

Lemma setVars_lookup v vars f :
  set_vars v vars !! f
  = if decide (f ∈ variableFields) then Some (field v f) else vars !! f.
Proof.
  unfold setVars.
  revert vars. induction variableFields as [|x l IH]; intros vars;
    cbn [fold_left].
  - by rewrite decide_False by apply not_elem_of_nil.
  - rewrite IH. destruct (decide (f ∈ l)) as [Hl|Hl].
    + rewrite decide_True; [done | by right].
    + destruct (decide (x = f)) as [->|Hx].
      * rewrite lookup_insert_eq, decide_True; [done | by left].
      * rewrite lookup_insert_ne, decide_False; [done | | done].
        by intros [->|?]%elem_of_cons.
Qed.

Lemma loopBody_skip i v st :
  name_of v = EmptyString →
  body i v st
  = {| seen := seen st; logged := logged st ++ [WarnEmptyName i ""] |}.
Proof.
  unfold recordName, loopBody. intros ->.
  by rewrite decide_True.
Qed.

Lemma loopBody_seen i v st :
  name_of v ≠ EmptyString →
  seen (body i v st)
  = <[key_of v := merge v (seen st !! key_of v)]> (seen st).
Proof.
  unfold recordName, recordKey, loopBody.
  intros Hname. rewrite decide_False by done. cbn zeta.
  set (name := stripSpaces _) in *. set (key := groupKey _ _ _).
  match goal with
  | |- context [setVariables ?a ?b (?c, ?l)] =>
    pose proof (setVariables_fst b c l) as Hvars;
    destruct (setVariables a b (c, l)) as [vars log]
  end.
  simpl in *. subst vars. unfold mergeRow, seenAt.
  destruct (seen st !! key) as [c|] eqn:Hk; simpl.
  - by rewrite Hk.
  - by rewrite lookup_insert_eq, insert_insert_eq.
Qed.

Lemma loopBody_logged i v st :
  ∃ more, logged (body i v st) = logged st ++ more.
Proof.
  unfold loopBody. case_decide; [by eauto|]. cbn zeta.
  match goal with
  | |- context [setVariables ?a ?b (?c, ?l)] =>
    pose proof (setVariables_snd b c l) as [more Hlog];
    destruct (setVariables a b (c, l)) as [vars log]
  end.
  simpl in *. eauto.
Qed.

Lemma loop_app i l1 l2 st :
  run i (l1 ++ l2) st = run (i + length l1) l2 (run i l1 st).
Proof.
  revert i st; induction l1 as [|v l1 IH]; intros i st; simpl.
  - by rewrite Nat.add_0_r.
  - rewrite IH. f_equal. lia.
Qed.

Lemma loop_logged i l st :
  ∃ more, logged (run i l st) = logged st ++ more.
Proof.
  revert i st; induction l as [|v l IH]; intros i st; simpl.
  - exists []. by rewrite app_nil_r.
  - destruct (IH (S i) (body i v st)) as [m1 ->].
    destruct (loopBody_logged i v st) as [m2 ->].
    rewrite <- app_assoc. eauto.
Qed.

Lemma group_snoc k l v :
  group_of k (l ++ [v])
  = group_of k l
    ++ (if decide (name_of v ≠ EmptyString ∧ key_of v = k)
        then [v] else []).
Proof.
  unfold group. rewrite filter_app. f_equal.
Qed.

Lemma groupContact_snoc g v :
  contact_of (g ++ [v]) = Some (merge v (contact_of g)).
Proof.
  unfold mergeRow.
  destruct g as [|u g]; [by simpl; rewrite app_nil_r|].
  cbn [groupContact app default c_name c_destinations c_labels c_variables].
  rewrite !app_comm_cons, fmap_app, bind_app, fold_left_app.
  simpl. by rewrite !app_nil_r.
Qed.

(** The invariant of the run: under every key, the contact accumulated
    from the rows of that key read so far. *)
Lemma loop_seen elements k :
  seen (run 0 elements {| seen := ∅; logged := [] |}) !! k
  = contact_of (group_of k elements).
Proof.
  induction elements as [|v l IH] using rev_ind; [done|].
  rewrite loop_app, group_snoc. cbn [loop].
  destruct (decide (name_of v = EmptyString)) as [Hn|Hn].
  - rewrite loopBody_skip by done. simpl.
    rewrite decide_False by tauto. by rewrite app_nil_r.
  - rewrite loopBody_seen by done.
    destruct (decide (key_of v = k)) as [<-|Hk].
    + rewrite lookup_insert_eq, decide_True by done.
      by rewrite groupContact_snoc, IH.
    + rewrite lookup_insert_ne, decide_False by tauto.
      by rewrite app_nil_r.
Qed.

End Loop.

(** ** The post-pass *)

(** Both deduplication loops are this fold; [m] is the map of seen keys. *)
Lemma unique_fold {A} (key : A → string) l acc (m : gmap string bool) :
  (fold_left (λ '(out, seenKeys) x,
                (if default false (seenKeys !! key x)
                 then out else out ++ [x],
                 <[key x := true]> seenKeys))
             l (acc, m)).1
  = acc ++ filter (λ y, default false (m !! key y) = false)
                  (firstOccurrences key l).
Proof.
  revert acc m; induction l as [|x l IH]; intros acc m.
  - simpl. by rewrite app_nil_r.
  - cbn [fold_left firstOccurrences]. rewrite IH, filter_cons.
    assert (Hins : ∀ l' : list A,
      filter (λ y, default false (<[key x:=true]> m !! key y) = false) l'
      = filter (λ y, default false (m !! key y) = false)
               (filter (λ y, key y ≠ key x) l')).
    { intros l'. rewrite list_filter_filter. apply list_filter_iff.
      intros y. destruct (decide (key x = key y)) as [Heq|Hne].
      - rewrite Heq, lookup_insert_eq. simpl. split; [done|].
        by intros [_ []].
      - rewrite lookup_insert_ne by done. split; [|tauto]. split; auto. }
    destruct (default false (m !! key x)) eqn:Hx.
    + rewrite decide_False by congruence. f_equal.
      rewrite Hins, !list_filter_filter. apply list_filter_iff.
      intros y. split; [|tauto]. intros [Hy _]. repeat split; auto.
      intros Hk. rewrite Hk in Hy. congruence.
    + rewrite decide_True by done. rewrite <- app_assoc. simpl.
      f_equal. f_equal. rewrite Hins, !list_filter_filter.
      apply list_filter_iff. tauto.
Qed.

Lemma uniqueLabels_first cl : uniqueLabels cl = firstOccurrences id cl.
Proof.
  unfold uniqueLabels. rewrite (unique_fold id). simpl.
  induction (firstOccurrences id cl) as [|x l IH]; [done|].
  by rewrite filter_cons_True, IH.
Qed.

Lemma uniqueDestinations_first cd :
  uniqueDestinations cd = firstOccurrences destination cd.
Proof.
  unfold uniqueDestinations. rewrite (unique_fold destination). simpl.
  induction (firstOccurrences destination cd) as [|x l IH]; [done|].
  by rewrite filter_cons_True, IH.
Qed.

(** Of the elements with a given key, [firstOccurrences] keeps the
    first. *)
Lemma firstOccurrences_key {A} (key : A → string) l d :
  filter (λ e, key e = d) (firstOccurrences key l)
  = take 1 (filter (λ e, key e = d) l).
Proof.
  induction l as [|x l IH]; [done|].
  cbn [firstOccurrences]. rewrite !filter_cons.
  destruct (decide (key x = d)) as [Hx|Hx].
  - simpl. f_equal. rewrite list_filter_filter. clear IH.
    induction (firstOccurrences key l) as [|y l' IH']; [done|].
    rewrite filter_cons_False; [done|]. intros [? ?]; congruence.
  - rewrite <- IH, list_filter_filter. apply list_filter_iff.
    intros y. split; [tauto|]. intros Hy. split; [done|]. congruence.
Qed.

Lemma firstOccurrences_elem_of {A} (key : A → string) l x :
  x ∈ firstOccurrences key l → x ∈ l.
Proof.
  induction l as [|y l IH]; [done|]. cbn [firstOccurrences].
  intros [->|[_ Hx]%list_elem_of_filter]%elem_of_cons; [by left|].
  right. auto.
Qed.

Lemma copyVariables_id cv : copyVariables cv = cv.
Proof.
  unfold copyVariables.
  induction cv as [|k x m Hk IH] using map_ind; [apply map_fold_empty|].
  rewrite map_fold_insert_L; [by rewrite IH | | done].
  intros j1 j2 z1 z2 y Hne _ _. by apply insert_insert_ne.
Qed.

Lemma contactsOf_fmap seen : contactsOf seen = contactObject <$> seen.
Proof.
  unfold contactsOf.
  induction seen as [|k x m Hk IH] using map_ind.
  - by rewrite map_fold_empty, fmap_empty.
  - rewrite map_fold_insert_L, fmap_insert; [by rewrite IH | | done].
    intros j1 j2 z1 z2 y Hne _ _. by apply insert_insert_ne.
Qed.

(** ** [Run] as a whole *)

Section Result.
Variable data : UniqueContactModel.
Variables groupByFields labelFields variableFields : list string.
Hypothesis Hdata : decodes data groupByFields labelFields variableFields.

Local Abbreviation final elements :=
  (loop data groupByFields labelFields variableFields 0 elements
        {| seen := ∅; logged := [] |}).

Lemma Run_decoded elements :
  Run elements data
  = {| Error := None;
       Result := Some (contactObject <$> seen (final elements));
       Logged := logged (final elements) |}.
Proof.
  destruct Hdata as (Hg & Hl & Hv). unfold Run.
  rewrite Hg, Hl, Hv. simpl. by rewrite contactsOf_fmap.
Qed.

(** Under every key of the result: the object made from the contact that
    the rows of that key accumulate to. *)
Lemma Result_lookup elements res k :
  Result (Run elements data) = Some res →
  res !! k
  = contactObject
      <$> groupContact data labelFields variableFields
            (group data groupByFields k elements).
Proof.
  rewrite Run_decoded. intros [= <-].
  by rewrite lookup_fmap, loop_seen.
Qed.

Lemma Result_group elements res k obj :
  Result (Run elements data) = Some res → res !! k = Some obj →
  ∃ first rest,
    group data groupByFields k elements = first :: rest
    ∧ obj = {| r_name := recordName data first;
               r_destinations :=
                 firstOccurrences destination
                   (rowDestination data <$> first :: rest);
               r_labels :=
                 firstOccurrences id
                   ((first :: rest) ≫= λ v, map (field v) labelFields);
               r_variables :=
                 fold_left (λ vars v, setVars variableFields v vars)
                           (first :: rest) ∅ |}.
Proof.
  intros Hres Hk. rewrite (Result_lookup _ _ _ Hres) in Hk.
  assert (Hb : ∀ g : list (gmap string string),
            g ≫= (λ v, map (field v) labelFields)
            = g ≫= rowLabels labelFields).
  { intros g. apply list_bind_ext; [|done].
    intros v. symmetry. apply rowLabels_map. }
  destruct (group _ _ _ _) as [|first rest]; [done|].
  exists first, rest. split; [done|]. rewrite Hb.
  injection Hk as <-. unfold contactObject.
  cbn [c_name c_destinations c_labels c_variables].
  by rewrite uniqueDestinations_first, uniqueLabels_first, copyVariables_id.
Qed.

End Result.

(** * The properties of the specification *)

(** C1 (worked example).  [Run] on the four rows of the example with its
    mapping ends without error and returns exactly two keys: ["foo1-foo"]
    with name ["foo1"], labels [local, other], both variables, and the
    destinations (1,+123), (1,+456), (2,+789); and ["bar1-foo"] with name
    ["bar1"], labels [local], the same variables, and the destination
    (1,+123): the map [example_result]. *)
Theorem C1_worked_example :
  Error (Run example_csv example_mapping) = None
  ∧ Result (Run example_csv example_mapping) = Some example_result
  ∧ dom example_result = {[ "foo1-foo"; "bar1-foo" ]}.
Proof. repeat split; compute_done. Qed.

(** The model agrees with the repository's acceptance test. *)
Lemma Run_test_known :
  Error (Run test_csv test_mapping) = None
  ∧ Result (Run test_csv test_mapping) = Some test_result.
Proof. split; compute_done. Qed.

Lemma Run_scenario :
  Run scenario_csv scenario_mapping
  = {| Error := None;
       Result := Some scenario_result;
       Logged := [ WarnEmptyName 1 ""; WarnOverwrite "x"; WarnOverwrite "y";
                   WarnOverwrite "x"; WarnOverwrite "y" ] |}.
Proof. compute_done. Qed.

(** C8 (normalization is idempotent).  For every string [x], normalizing
    twice gives what normalizing once gives: the ["+"] that the first pass
    puts in front is not a digit, so the second pass removes it and puts it
    back, and keeps the digits. *)
Theorem C8_normalize_idempotent (x : string) :
  normalize (normalize x) = normalize x.
Proof.
  unfold normalize. rewrite !ReplaceAllString_digits. f_equal.
  rewrite append_cons, append_nil_l. cbn [filterBytes]. change (isDigitByte "+") with false. cbv iota.
  apply filterBytes_id, filterBytes_all.
Qed.

Lemma groupKey_as_spec groupByFields v name :
  groupKey groupByFields v name = groupKey_spec groupByFields v name.
Proof.
  unfold groupKey, groupKey_spec.
  rewrite keyFieldsOf_filter. cbv zeta.
  destruct (filter _ _) as [|x l].
  - rewrite decide_False; [done|]. intros H. by apply H.
  - by rewrite decide_True.
Qed.

Lemma keyFields_all_empty (v : gmap string string) l :
  Forall (λ k, field v k = EmptyString) l →
  filter (λ x, x ≠ EmptyString) (map (field v) l) = [].
Proof.
  induction 1 as [|k l Hk _ IH]; [done|].
  simpl. by rewrite filter_cons_False by auto.
Qed.

Lemma setVariables_log_all variableFields v
    (vars : gmap string string) log :
  (∀ f, f ∈ variableFields → is_Some (vars !! f)) →
  (setVariables variableFields v (vars, log)).2
  = log ++ (WarnOverwrite <$> variableFields).
Proof.
  unfold setVariables. revert vars log.
  induction variableFields as [|f l IH]; intros vars log Hall.
  - by rewrite app_nil_r.
  - cbn [fold_left]. rewrite decide_True by (apply Hall; by left).
    rewrite IH.
    + by rewrite <- app_assoc.
    + intros g Hg. destruct (decide (f = g)) as [->|Hne].
      * by rewrite lookup_insert_eq.
      * rewrite lookup_insert_ne by done. apply Hall. by right.
Qed.

Section Claims.
Variable data : UniqueContactModel.
Variables groupByFields labelFields variableFields : list string.

Local Abbreviation nameField := (ValueString (NameField data)).
Local Abbreviation codeField := (ValueString (CodeField data)).
Local Abbreviation destinationField := (ValueString (DestinationField data)).
Local Abbreviation decoded_mapping :=
  (decodes data groupByFields labelFields variableFields).
Local Abbreviation body :=
  (loopBody data groupByFields labelFields variableFields).
Local Abbreviation group_of := (group data groupByFields).

(** C3 (grouping key).  A row [v] of the input that is not skipped is kept
    under the key made of the non-empty values of the group-by fields, in
    declared order, joined with ["-"]; when there is no group-by field, or
    every one is empty in [v], the key is the normalized name.  That key is
    in the result, every key of the result is the key of such a row, and the
    iteration that reads [v] writes under that key only. *)
Theorem C3_group_key (elements : list (gmap string string))
    (res : gmap string returnObject) (v : gmap string string) :
  let name := stripSpaces (field v nameField) in
  let vals := filter (λ x, x ≠ EmptyString) (map (field v) groupByFields) in
  let key := if decide (vals = []) then name else strings_Join vals "-" in
  decoded_mapping →
  Result (Run elements data) = Some res →
  v ∈ elements →
  name ≠ EmptyString →
  groupKey groupByFields v name = key
  ∧ key = groupKey_spec groupByFields v name
  ∧ (groupByFields = [] → key = name)
  ∧ (Forall (λ k, field v k = EmptyString) groupByFields → key = name)
  ∧ v ∈ group_of key elements
  ∧ is_Some (res !! key)
  ∧ (∀ k, is_Some (res !! k) →
       ∃ u, u ∈ elements
            ∧ stripSpaces (field u nameField) ≠ EmptyString
            ∧ groupKey_spec groupByFields u (stripSpaces (field u nameField))
              = k)
  ∧ (∀ i st,
       (∃ c ds, seen (body i v st) !! key = Some c
                ∧ c_destinations c = ds ++ [rowDestination data v])
       ∧ ∀ k, k ≠ key → seen (body i v st) !! k = seen st !! k).
Proof.
  intros name vals key Hdata Hres Hv Hname.
  pose proof (groupKey_as_spec groupByFields) as Hspec.
  assert (Hkey : groupKey groupByFields v name = key).
  { rewrite Hspec. unfold groupKey_spec, key, vals.
    by destruct (filter _ _). }
  assert (Hin : v ∈ group_of key elements).
  { apply list_elem_of_filter. by repeat split. }
  repeat split.
  - done.
  - by rewrite <- Hkey, Hspec.
  - intros Hg. unfold key, vals. by rewrite Hg.
  - intros Hall. unfold key, vals.
    by rewrite decide_True by by apply keyFields_all_empty.
  - done.
  - rewrite (Result_lookup _ _ _ _ Hdata _ _ _ Hres).
    destruct (group_of key elements); [by apply elem_of_nil in Hin|].
    by eexists.
  - intros k [obj Hk].
    destruct (Result_group _ _ _ _ Hdata _ _ _ _ Hres Hk)
      as (u & rest & Hg & _).
    assert (Hu : u ∈ group_of k elements) by (rewrite Hg; by left).
    apply list_elem_of_filter in Hu as [[Hn Hku] Hu].
    exists u. repeat split; [done..|].
    by rewrite <- Hspec.
  - rewrite loopBody_seen by done. unfold recordKey, recordName.
    fold name. rewrite Hkey, lookup_insert_eq.
    eexists _, _. split; [done|]. reflexivity.
  - intros k Hk. rewrite loopBody_seen by done.
    unfold recordKey, recordName. fold name. rewrite Hkey.
    by rewrite lookup_insert_ne.
Qed.

(** C4 (empty-name skip).  A row whose name is empty after [stripSpaces]
    (a blank name, a name made of white space only, or no name field at
    all) changes nothing: the iteration that reads it leaves [seen] as it
    was and logs one warning, [Run] returns the result it returns without
    that row, and it ends without error. *)
Theorem C4_empty_name_skip (before after : list (gmap string string))
    (v : gmap string string) :
  decoded_mapping →
  stripSpaces (field v nameField) = EmptyString
  ∨ v !! nameField = None
  ∨ Forall (λ c, unicode_IsSpace c.1 = true)
           (rangeString (field v nameField)) →
  stripSpaces (field v nameField) = EmptyString
  ∧ Error (Run (before ++ v :: after) data) = None
  ∧ Result (Run (before ++ v :: after) data)
    = Result (Run (before ++ after) data)
  ∧ WarnEmptyName (length before) "" ∈ Logged (Run (before ++ v :: after) data)
  ∧ (∀ i st, body i v st
             = {| seen := seen st;
                  logged := logged st ++ [WarnEmptyName i ""] |}).
Proof.
  intros Hdata Hcases.
  assert (Hname : stripSpaces (field v nameField) = EmptyString).
  { destruct Hcases as [H|[H|H]]; [done| |by apply stripSpaces_empty].
    unfold field. by rewrite H. }
  rewrite !(Run_decoded _ _ _ _ Hdata). cbn [Error Result Logged].
  repeat split; [done| | |].
  - do 2 f_equal. apply map_eq. intros k.
    rewrite !loop_seen. f_equal. unfold group.
    rewrite !filter_app. f_equal. apply filter_cons_False.
    unfold recordName. tauto.
  - rewrite loop_app. cbn [loop].
    destruct (loop_logged data groupByFields labelFields variableFields
                (S (0 + length before)) after
                (body (0 + length before) v
                   (loop data groupByFields labelFields variableFields 0
                         before {| seen := ∅; logged := [] |})))
      as [more ->].
    rewrite loopBody_skip by done. cbn [logged].
    apply elem_of_app. left. apply elem_of_app. right. by left.
  - intros i st. by apply loopBody_skip.
Qed.

Lemma loopBody_name i v st k c :
  seen st !! k = Some c →
  ∃ c', seen (body i v st) !! k = Some c' ∧ c_name c' = c_name c.
Proof.
  intros Hk.
  destruct (decide (recordName data v = EmptyString)) as [Hn|Hn].
  - rewrite loopBody_skip by done. by exists c.
  - rewrite loopBody_seen by done.
    destruct (decide (recordKey data groupByFields v = k)) as [<-|Hne].
    + rewrite lookup_insert_eq, Hk. by eexists.
    + rewrite lookup_insert_ne by done. by exists c.
Qed.

(** C5 (name retention).  The name of a contact of the result is the
    normalized name of the first row of its group, in input order; and no
    iteration changes the name stored under a key that is already there,
    whatever row it reads. *)
Theorem C5_name_retention (elements : list (gmap string string))
    (res : gmap string returnObject) (k : string) (obj : returnObject) :
  decoded_mapping →
  Result (Run elements data) = Some res →
  res !! k = Some obj →
  (∃ first rest,
     group_of k elements = first :: rest
     ∧ r_name obj = stripSpaces (field first nameField))
  ∧ (∀ i v st c,
       seen st !! k = Some c →
       ∃ c', seen (body i v st) !! k = Some c' ∧ c_name c' = c_name c)
  ∧ (∀ i rows st c,
       seen st !! k = Some c →
       ∃ c', seen (loop data groupByFields labelFields variableFields
                        i rows st) !! k = Some c'
             ∧ c_name c' = c_name c).
Proof.
  intros Hdata Hres Hk. repeat split.
  - destruct (Result_group _ _ _ _ Hdata _ _ _ _ Hres Hk)
      as (first & rest & Hg & ->).
    by exists first, rest.
  - intros i v st c. apply loopBody_name.
  - intros i rows. revert i.
    induction rows as [|v rows IH]; intros i st c Hc; simpl.
    + by exists c.
    + destruct (loopBody_name i v st k c Hc) as (c1 & Hc1 & <-).
      by apply IH.
Qed.

Lemma nonempty_snoc {A} (l : list A) :
  l ≠ [] → ∃ earlier x, l = earlier ++ [x].
Proof.
  intros Hl. destruct l as [|y l' _] using rev_ind; [done|].
  by exists l', y.
Qed.

(** The variables of a group: every declared field, with the value it has
    in the last row of the group. *)
Lemma groupVars_lookup (earlier : list (gmap string string)) last f :
  fold_left (λ vars v, setVars variableFields v vars) (earlier ++ [last]) ∅
    !! f
  = if decide (f ∈ variableFields) then Some (field last f) else None.
Proof.
  rewrite fold_left_app. cbn [fold_left]. rewrite setVars_lookup.
  destruct (decide (f ∈ variableFields)) as [|Hf]; [done|].
  induction earlier as [|x l IH] using rev_ind; [done|].
  rewrite fold_left_app. cbn [fold_left].
  by rewrite setVars_lookup, decide_False.
Qed.

Lemma setVariables_overwrite v vars log f :
  f ∈ variableFields → is_Some (vars !! f) →
  WarnOverwrite f ∈ (setVariables variableFields v (vars, log)).2.
Proof.
  unfold setVariables. intros Hf. revert vars log.
  induction Hf as [f l|f x l _ IH]; intros vars log Hsome; cbn [fold_left].
  - rewrite decide_True by done.
    destruct (setVariables_snd l v (<[f:=field v f]> vars)
                (log ++ [WarnOverwrite f])) as [more Hmore].
    unfold setVariables in Hmore. rewrite Hmore.
    apply elem_of_app. left. apply elem_of_app. right. by left.
  - apply IH. destruct (decide (x = f)) as [->|].
    + by rewrite lookup_insert_eq.
    + by rewrite lookup_insert_ne.
Qed.

Lemma loopBody_overwrite i v st c f :
  recordName data v ≠ EmptyString →
  seen st !! recordKey data groupByFields v = Some c →
  is_Some (c_variables c !! f) → f ∈ variableFields →
  WarnOverwrite f ∈ logged (body i v st).
Proof.
  unfold recordKey, recordName, loopBody. intros Hn Hk Hsome Hf.
  rewrite decide_False by done. cbn zeta. rewrite Hk.
  unfold seenAt. rewrite Hk. cbn [default c_variables]. unfold id.
  pose proof (setVariables_overwrite v (c_variables c) (logged st) f
                Hf Hsome) as Hin.
  by destruct (setVariables variableFields v (c_variables c, logged st)).
Qed.

Lemma loopBody_logged_overwrite i v st c :
  recordName data v ≠ EmptyString →
  seen st !! recordKey data groupByFields v = Some c →
  (∀ f, f ∈ variableFields → is_Some (c_variables c !! f)) →
  logged (body i v st) = logged st ++ (WarnOverwrite <$> variableFields).
Proof.
  unfold recordKey, recordName, loopBody. intros Hn Hk Hall.
  rewrite decide_False by done. cbn zeta. rewrite Hk.
  unfold seenAt. rewrite Hk. cbn [default c_variables]. unfold id.
  pose proof (setVariables_log_all variableFields v (c_variables c)
                (logged st) Hall) as Hlog.
  by destruct (setVariables variableFields v (c_variables c, logged st)).
Qed.

(** C6 (variables: the last write wins).  In every contact of the result,
    every declared variable field has the value it has in the last row of
    the group, and [Run] ends without error.  Every row that is read when
    its group already has a row overwrites each declared field and logs a
    warning for it: the iteration that reads the row adds to the log
    exactly one warning for every declared variable field, in declared
    order, and leaves the variables of the group with the values of that
    row. *)
Theorem C6_variable_last_write (elements : list (gmap string string))
    (res : gmap string returnObject) (k : string) (obj : returnObject) :
  decoded_mapping →
  Result (Run elements data) = Some res →
  res !! k = Some obj →
  Error (Run elements data) = None
  ∧ (∃ earlier last,
       group_of k elements = earlier ++ [last]
       ∧ ∀ f, f ∈ variableFields →
              r_variables obj !! f = Some (field last f))
  ∧ (∀ before v after f,
       elements = before ++ v :: after →
       stripSpaces (field v nameField) ≠ EmptyString →
       group_of (groupKey groupByFields v (stripSpaces (field v nameField)))
                before ≠ [] →
       f ∈ variableFields →
       WarnOverwrite f ∈ Logged (Run elements data))
  ∧ (∀ before v after,
       elements = before ++ v :: after →
       stripSpaces (field v nameField) ≠ EmptyString →
       group_of (groupKey groupByFields v (stripSpaces (field v nameField)))
                before ≠ [] →
       Logged (Run (before ++ [v]) data)
       = Logged (Run before data) ++ (WarnOverwrite <$> variableFields)
       ∧ (∃ more,
            Logged (Run elements data)
            = Logged (Run before data)
              ++ (WarnOverwrite <$> variableFields) ++ more)
       ∧ ∃ res' obj',
           Result (Run (before ++ [v]) data) = Some res'
           ∧ res' !! groupKey groupByFields v
                       (stripSpaces (field v nameField)) = Some obj'
           ∧ ∀ f, f ∈ variableFields →
                  r_variables obj' !! f = Some (field v f)).
Proof.
  intros Hdata Hres Hk. split; [|split; [|split]].
  - by rewrite (Run_decoded _ _ _ _ Hdata).
  - destruct (Result_group _ _ _ _ Hdata _ _ _ _ Hres Hk)
      as (first & rest & Hg & ->).
    destruct (nonempty_snoc (first :: rest)) as (earlier & last & Hl);
      [done|].
    exists earlier, last. rewrite Hg. split; [done|].
    intros f Hf. cbn [r_variables]. rewrite Hl, groupVars_lookup.
    by rewrite decide_True.
  - intros before v after f -> Hn Hg Hf.
    rewrite (Run_decoded _ _ _ _ Hdata). cbn [Logged].
    rewrite loop_app. cbn [loop].
    match goal with
    | |- _ ∈ logged (loop _ _ _ _ ?i ?l ?st) =>
      destruct (loop_logged data groupByFields labelFields variableFields
                  i l st) as [more ->]
    end.
    apply elem_of_app. left.
    pose proof (loop_seen data groupByFields labelFields variableFields
                  before (recordKey data groupByFields v)) as Hs.
    unfold recordKey, recordName in Hs.
    destruct (nonempty_snoc _ Hg) as (g' & u & Hu). rewrite Hu in Hs.
    rewrite groupContact_snoc in Hs.
    eapply loopBody_overwrite; [done | exact Hs | | done].
    cbn [mergeRow c_variables]. rewrite setVars_lookup.
    by rewrite decide_True.
  - intros before v after -> Hn Hg.
    pose proof (loop_seen data groupByFields labelFields variableFields
                  before (recordKey data groupByFields v)) as Hs.
    unfold recordKey, recordName in Hs.
    destruct (nonempty_snoc _ Hg) as (g' & u & Hu). rewrite Hu in Hs.
    rewrite groupContact_snoc in Hs.
    assert (Hrow :
      logged (body (0 + length before) v
                (loop data groupByFields labelFields variableFields 0
                      before {| seen := ∅; logged := [] |}))
      = logged (loop data groupByFields labelFields variableFields 0
                     before {| seen := ∅; logged := [] |})
        ++ (WarnOverwrite <$> variableFields)).
    { eapply loopBody_logged_overwrite; [done | exact Hs |].
      intros f Hf. cbn [mergeRow c_variables].
      by rewrite setVars_lookup, decide_True. }
    rewrite !(Run_decoded _ _ _ _ Hdata). cbn [Logged Result].
    split; [|split].
    + rewrite loop_app. cbn [loop]. exact Hrow.
    + rewrite loop_app. cbn [loop].
      match goal with
      | |- ∃ _, logged (loop _ _ _ _ ?i ?l ?st) = _ =>
        destruct (loop_logged data groupByFields labelFields variableFields
                    i l st) as [more ->]
      end.
      exists more. by rewrite Hrow, <- app_assoc.
    + eexists _, _. split; [done|]. split.
      * rewrite lookup_fmap, loop_seen.
        fold (recordName data v). fold (recordKey data groupByFields v).
        rewrite group_snoc, decide_True by done.
        by rewrite groupContact_snoc.
      * intros f Hf. cbn [contactObject r_variables mergeRow c_variables].
        by rewrite copyVariables_id, setVars_lookup, decide_True.
Qed.

(** C9 (variable keys).  In every contact of the result the keys of
    [variables] are exactly the declared variable fields: a field that the
    last row of the group lacks, or has as [""], is there with the value
    [""], and no other key is. *)
Theorem C9_variable_keys (elements : list (gmap string string))
    (res : gmap string returnObject) (k : string) (obj : returnObject) :
  decoded_mapping →
  Result (Run elements data) = Some res →
  res !! k = Some obj →
  dom (r_variables obj) = list_to_set variableFields
  ∧ (∀ f, is_Some (r_variables obj !! f) ↔ f ∈ variableFields)
  ∧ (∃ earlier last,
       group_of k elements = earlier ++ [last]
       ∧ ∀ f, f ∈ variableFields →
              last !! f = None ∨ last !! f = Some EmptyString →
              r_variables obj !! f = Some EmptyString).
Proof.
  intros Hdata Hres Hk.
  destruct (Result_group _ _ _ _ Hdata _ _ _ _ Hres Hk)
    as (first & rest & Hg & ->).
  destruct (nonempty_snoc (first :: rest)) as (earlier & last & Hl);
    [done|].
  cbn [r_variables]. rewrite Hl.
  assert (Hdom : ∀ f,
    is_Some (fold_left (λ vars v, setVars variableFields v vars)
                       (earlier ++ [last]) ∅ !! f)
    ↔ f ∈ variableFields).
  { intros f. rewrite groupVars_lookup.
    destruct (decide (f ∈ variableFields)); split; try done.
    all: by intros [? ?]. }
  repeat split; try apply Hdom.
  - apply set_eq. intros f.
    by rewrite elem_of_dom, Hdom, elem_of_list_to_set.
  - exists earlier, last. rewrite Hg. split; [done|].
    intros f Hf Hlast. rewrite groupVars_lookup, decide_True by done.
    unfold field. by destruct Hlast as [-> | ->].
Qed.

(** C7 (labels).  The labels of a contact of the result are the values of
    the label fields, in declared order, of the rows of its group, in input
    order, each string kept where it first occurs and dropped where it
    occurs again; so [a, b, a, c] gives [a, b, c]. *)
Theorem C7_label_dedup (elements : list (gmap string string))
    (res : gmap string returnObject) (k : string) (obj : returnObject) :
  decoded_mapping →
  Result (Run elements data) = Some res →
  res !! k = Some obj →
  r_labels obj
  = firstOccurrences id
      (group_of k elements ≫= λ v, map (field v) labelFields)
  ∧ NoDup (r_labels obj)
  ∧ uniqueLabels ["a"; "b"; "a"; "c"] = ["a"; "b"; "c"].
Proof.
  intros Hdata Hres Hk.
  destruct (Result_group _ _ _ _ Hdata _ _ _ _ Hres Hk)
    as (first & rest & Hg & ->).
  cbn [r_labels]. rewrite Hg. split; [done|]. split; [|done].
  generalize ((first :: rest) ≫= λ v, map (field v) labelFields).
  intros l. induction l as [|x l IH]; cbn [firstOccurrences].
  - constructor.
  - apply NoDup_cons. split; [|by apply NoDup_filter].
    by intros [? _]%list_elem_of_filter.
Qed.

Lemma filter_first_of {A B} (f : A → B) (P : B → Prop)
    `{∀ y, Decision (P y)} (g : list A) (y : B) :
  y ∈ filter P (f <$> g) →
  ∃ first, first ∈ g ∧ P (f first)
           ∧ take 1 (filter P (f <$> g)) = [f first].
Proof.
  induction g as [|a g IH]; [by intros ?%elem_of_nil|].
  rewrite fmap_cons, filter_cons.
  destruct (decide (P (f a))) as [Hp|Hp].
  - intros _. exists a. repeat split; [by left | done..].
  - intros (first & Hin & Hf & Ht)%IH.
    exists first. repeat split; [by right | done..].
Qed.

(** C2 (destinations are deduplicated on the normalized string alone).
    Let [v] be the first row of its group whose destination normalizes to a
    given string.  Then the contact of the group has exactly one
    destination with that string, and it carries the code of [v]; a later
    row of the group with the same normalized string adds nothing, and if
    its code differs, its pair (code, destination) is not in the result. *)
Theorem C2_destination_dedup (elements : list (gmap string string))
    (res : gmap string returnObject) (k : string) (obj : returnObject)
    (earlier later : list (gmap string string)) (v : gmap string string) :
  let d := normalize (field v destinationField) in
  decoded_mapping →
  Result (Run elements data) = Some res →
  res !! k = Some obj →
  group_of k elements = earlier ++ v :: later →
  (∀ u, u ∈ earlier → normalize (field u destinationField) ≠ d) →
  filter (λ e, destination e = d) (r_destinations obj)
  = [ {| code := field v codeField; destination := d |} ]
  ∧ (∀ u, u ∈ later →
          normalize (field u destinationField) = d →
          field u codeField ≠ field v codeField →
          {| code := field u codeField; destination := d |}
          ∉ r_destinations obj).
Proof.
  intros d Hdata Hres Hk Hg Hfirst.
  destruct (Result_group _ _ _ _ Hdata _ _ _ _ Hres Hk)
    as (first & rest & Hg' & ->).
  cbn [r_destinations]. rewrite <- Hg', Hg.
  assert (Hone :
    filter (λ e, destination e = d)
      (firstOccurrences destination
         (rowDestination data <$> earlier ++ v :: later))
    = [rowDestination data v]).
  { rewrite firstOccurrences_key, fmap_app, filter_app, fmap_cons.
    rewrite filter_cons_True by done.
    replace (filter _ (rowDestination data <$> earlier)) with
      (@nil Destination); [done|].
    symmetry. clear Hg. induction earlier as [|u l IH]; [done|].
    rewrite fmap_cons, filter_cons_False.
    - apply IH. intros u' Hu'. apply Hfirst. by right.
    - apply Hfirst. by left. }
  split; [exact Hone|].
  intros u Hu Hd Hcode Hin.
  assert (Hin' : {| code := field u codeField; destination := d |}
                 ∈ [rowDestination data v]).
  { rewrite <- Hone. by apply list_elem_of_filter. }
  apply list_elem_of_singleton in Hin'. by injection Hin'.
Qed.

(** C10 (a destination without digits).  For a row of a group whose
    destination value has no digit (an empty value and a missing field
    among them), the destination made for the row is ["+"]; the iteration
    that reads the row appends that destination, and the contact of the
    group has exactly one destination ["+"], whatever the number of such
    rows. *)
Theorem C10_digit_free_destination (elements : list (gmap string string))
    (res : gmap string returnObject) (k : string) (obj : returnObject)
    (v : gmap string string) :
  decoded_mapping →
  Result (Run elements data) = Some res →
  res !! k = Some obj →
  v ∈ group_of k elements →
  v !! destinationField = None
  ∨ allBytes (λ b, negb (isDigitByte b)) (field v destinationField) = true →
  rowDestination data v = {| code := field v codeField; destination := "+" |}
  ∧ (∀ i st, ∃ c ds,
       seen (body i v st) !! k = Some c
       ∧ c_destinations c
         = ds ++ [ {| code := field v codeField; destination := "+" |} ])
  ∧ (∃ first,
       first ∈ group_of k elements
       ∧ filter (λ e, destination e = "+") (r_destinations obj)
         = [ {| code := field first codeField; destination := "+" |} ]).
Proof.
  intros Hdata Hres Hk Hv Hfree.
  assert (Hplus : rowDestination data v
                  = {| code := field v codeField; destination := "+" |}).
  { unfold rowDestination, normalize. f_equal.
    rewrite ReplaceAllString_digits, filterBytes_none; [done|].
    destruct Hfree as [Hnone|H]; [|done].
    unfold field. by rewrite Hnone. }
  repeat split; [done| |].
  - intros i st.
    apply list_elem_of_filter in Hv as [[Hn Hkey] _].
    rewrite loopBody_seen, Hkey, lookup_insert_eq by done.
    eexists _, _. split; [done|]. cbn [mergeRow c_destinations].
    by rewrite Hplus.
  - destruct (Result_group _ _ _ _ Hdata _ _ _ _ Hres Hk)
      as (first & rest & Hg & ->).
    cbn [r_destinations]. rewrite <- Hg, firstOccurrences_key.
    destruct (filter_first_of (rowDestination data)
                (λ e, destination e = "+") (group_of k elements)
                (rowDestination data v)) as (u & Hu & Hd & ->).
    { apply list_elem_of_filter. split; [by rewrite Hplus|].
      by apply list_elem_of_fmap_2. }
    exists u. split; [done|]. unfold rowDestination in *.
    cbn [destination] in Hd. by rewrite Hd.
Qed.

End Claims.

(** * The properties on concrete inputs *)

Lemma scenario_decodes :
  decodes scenario_mapping ["id"] ["l1"; "l2"] ["x"; "y"].
Proof. repeat split. Defined.

Lemma test_decodes :
  decodes test_mapping ["name"; "account_id"] ["code"; "destination"]
          ["name"].
Proof. repeat split. Defined.

Lemma example_decodes :
  decodes example_mapping ["name"; "foo_variable"] ["foo_label"]
          ["foo_variable"; "bar_variable"].
Proof. repeat split. Defined.

Lemma scenario_Result :
  Result (Run scenario_csv scenario_mapping) = Some scenario_result.
Proof. compute_done. Defined.

(** C3 on the third row of the example: its key is ["foo1-foo"]. *)
Lemma C3_group_key_witness :
  let v := example_row "foo1" "2" "789" "other" "foo" "bar" in
  let name := stripSpaces (field v "name") in
  let vals :=
    filter (λ x, x ≠ "") (map (field v) ["name"; "foo_variable"]) in
  let key := if decide (vals = []) then name else strings_Join vals "-" in
  (Result (Run example_csv example_mapping) = Some example_result
   ∧ v ∈ example_csv
   ∧ name ≠ "")
  ∧ key = "foo1-foo"
  ∧ groupKey ["name"; "foo_variable"] v name = key
  ∧ is_Some (example_result !! key).
Proof.
  intros v name vals key.
  assert (H1 : Result (Run example_csv example_mapping) = Some example_result)
    by compute_done.
  assert (H2 : v ∈ example_csv)
    by (do 2 apply list_elem_of_further; apply list_elem_of_here).
  assert (H3 : name ≠ "") by compute_done.
  split; [exact (conj H1 (conj H2 H3))|]. split; [compute_done|].
  destruct (C3_group_key example_mapping _ _ _ example_csv example_result v
              example_decodes H1 H2 H3) as (Hkey & _ & _ & _ & _ & Hres & _).
  split; [exact Hkey | exact Hres].
Defined.

(** C4 on the scenario: its second row has a name of white space only (a
    tab, a no-break space and a space). *)
Lemma C4_empty_name_skip_witness :
  let before := take 1 scenario_csv in
  let after := drop 2 scenario_csv in
  let v : gmap string string :=
    list_to_map [("name", blank_name); ("id", "7"); ("code", "5");
                 ("destination", "555"); ("l1", "z"); ("l2", "z");
                 ("x", "v0"); ("y", "w0")] in
  Forall (λ c, unicode_IsSpace c.1 = true) (rangeString (field v "name"))
  ∧ Result (Run (before ++ v :: after) scenario_mapping)
    = Result (Run (before ++ after) scenario_mapping)
  ∧ WarnEmptyName (length before) ""
    ∈ Logged (Run (before ++ v :: after) scenario_mapping).
Proof.
  intros before after v.
  assert (H1 : Forall (λ c, unicode_IsSpace c.1 = true)
                      (rangeString (field v "name")))
    by (vm_compute; repeat constructor).
  split; [exact H1|].
  destruct (C4_empty_name_skip scenario_mapping _ _ _ before after v
              scenario_decodes (or_intror (or_intror H1)))
    as (_ & _ & Hres & Hlog & _).
  split; [exact Hres | exact Hlog].
Defined.

(** C5 on the scenario: the group ["7"] has the rows of Alice and Bob, and
    the name of Alice. *)
Lemma C5_name_retention_witness :
  let obj :=
    {| r_name := "Alice A";
       r_destinations := [ {| code := "1"; destination := "+123" |} ];
       r_labels := ["a"; "b"; "c"];
       r_variables := {[ "x" := "v2"; "y" := "" ]} |} in
  (Result (Run scenario_csv scenario_mapping) = Some scenario_result
   ∧ scenario_result !! "7" = Some obj)
  ∧ ∃ first rest,
      group scenario_mapping ["id"] "7" scenario_csv = first :: rest
      ∧ r_name obj = stripSpaces (field first "name").
Proof.
  intros obj.
  assert (H2 : scenario_result !! "7" = Some obj) by compute_done.
  split; [split; [exact scenario_Result | exact H2]|].
  exact (proj1 (C5_name_retention scenario_mapping _ _ _ scenario_csv
                  scenario_result "7" obj scenario_decodes scenario_Result
                  H2)).
Defined.

(** C6 on the scenario: in the group ["7"], [x] is set to ["v1"] and then
    to ["v2"] by Bob's row; in the group ["8"], Dave's row is the second
    row that overwrites, and it logs its two warnings as well. *)
Lemma C6_variable_last_write_witness :
  let obj :=
    {| r_name := "Alice A";
       r_destinations := [ {| code := "1"; destination := "+123" |} ];
       r_labels := ["a"; "b"; "c"];
       r_variables := {[ "x" := "v2"; "y" := "" ]} |} in
  let bob : gmap string string :=
    list_to_map [("name", "Bob"); ("id", "7"); ("code", "2");
                 ("destination", "1-2-3"); ("l1", "a"); ("l2", "c");
                 ("x", "v2")] in
  let dave : gmap string string :=
    list_to_map [("name", "Dave"); ("id", "8"); ("code", "10");
                 ("l1", "a"); ("l2", "a"); ("x", "v4"); ("y", "w4")] in
  (Result (Run scenario_csv scenario_mapping) = Some scenario_result
   ∧ scenario_result !! "7" = Some obj)
  ∧ (∃ earlier last,
       group scenario_mapping ["id"] "7" scenario_csv = earlier ++ [last]
       ∧ ∀ f, f ∈ ["x"; "y"] → r_variables obj !! f = Some (field last f))
  ∧ r_variables obj !! "x" = Some "v2"
  ∧ WarnOverwrite "x" ∈ Logged (Run scenario_csv scenario_mapping)
  ∧ Logged (Run (take 2 scenario_csv ++ [bob]) scenario_mapping)
    = Logged (Run (take 2 scenario_csv) scenario_mapping)
      ++ (WarnOverwrite <$> ["x"; "y"])
  ∧ Logged (Run (take 4 scenario_csv ++ [dave]) scenario_mapping)
    = Logged (Run (take 4 scenario_csv) scenario_mapping)
      ++ (WarnOverwrite <$> ["x"; "y"])
  ∧ Logged (Run (take 4 scenario_csv) scenario_mapping)
    = [WarnEmptyName 1 ""; WarnOverwrite "x"; WarnOverwrite "y"].
Proof.
  intros obj bob dave.
  assert (H2 : scenario_result !! "7" = Some obj) by compute_done.
  split; [split; [exact scenario_Result | exact H2]|].
  destruct (C6_variable_last_write scenario_mapping _ _ _ scenario_csv
              scenario_result "7" obj scenario_decodes scenario_Result H2)
    as (_ & Hlast & Hwarn & Hrow).
  split; [exact Hlast|]. split; [compute_done|]. split.
  { refine (Hwarn (take 2 scenario_csv) bob (drop 3 scenario_csv) "x"
              _ _ _ _).
    - compute_done.
    - compute_done.
    - compute_done.
    - apply list_elem_of_here. }
  split.
  { refine (proj1 (Hrow (take 2 scenario_csv) bob (drop 3 scenario_csv)
                     _ _ _)); compute_done. }
  split; [|compute_done].
  refine (proj1 (Hrow (take 4 scenario_csv) dave [] _ _ _)); compute_done.
Defined.

(** C7 on the scenario: the rows of the group ["7"] have the labels
    a, b, a, c. *)
Lemma C7_label_dedup_witness :
  let obj :=
    {| r_name := "Alice A";
       r_destinations := [ {| code := "1"; destination := "+123" |} ];
       r_labels := ["a"; "b"; "c"];
       r_variables := {[ "x" := "v2"; "y" := "" ]} |} in
  (Result (Run scenario_csv scenario_mapping) = Some scenario_result
   ∧ scenario_result !! "7" = Some obj)
  ∧ group scenario_mapping ["id"] "7" scenario_csv
      ≫= (λ v, map (field v) ["l1"; "l2"])
    = ["a"; "b"; "a"; "c"]
  ∧ r_labels obj
    = firstOccurrences id
        (group scenario_mapping ["id"] "7" scenario_csv
           ≫= λ v, map (field v) ["l1"; "l2"]).
Proof.
  intros obj.
  assert (H2 : scenario_result !! "7" = Some obj) by compute_done.
  split; [split; [exact scenario_Result | exact H2]|].
  split; [compute_done|].
  exact (proj1 (C7_label_dedup scenario_mapping _ _ _ scenario_csv
                  scenario_result "7" obj scenario_decodes scenario_Result
                  H2)).
Defined.

(** C9 on the scenario: Bob's row has no [y], and the group ["7"] has the
    variables [x] and [y]. *)
Lemma C9_variable_keys_witness :
  let obj :=
    {| r_name := "Alice A";
       r_destinations := [ {| code := "1"; destination := "+123" |} ];
       r_labels := ["a"; "b"; "c"];
       r_variables := {[ "x" := "v2"; "y" := "" ]} |} in
  (Result (Run scenario_csv scenario_mapping) = Some scenario_result
   ∧ scenario_result !! "7" = Some obj)
  ∧ dom (r_variables obj) = list_to_set ["x"; "y"]
  ∧ r_variables obj !! "y" = Some "".
Proof.
  intros obj.
  assert (H2 : scenario_result !! "7" = Some obj) by compute_done.
  split; [split; [exact scenario_Result | exact H2]|].
  split; [|compute_done].
  exact (proj1 (C9_variable_keys scenario_mapping _ _ _ scenario_csv
                  scenario_result "7" obj scenario_decodes scenario_Result
                  H2)).
Defined.

(** C2 on the acceptance test: in the group ["foo1-123"] the rows with the
    codes 1 and 2 have the same destination, and the pair with the code 1
    alone is kept. *)
Lemma C2_destination_dedup_witness :
  let v := test_row "foo1" "1" "ami-54d2a63b" "123" in
  let u := test_row "foo1" "2" "ami-54d2a63b" "123" in
  let d := normalize (field v "destination") in
  let obj :=
    {| r_name := "foo1";
       r_destinations := [ {| code := "1"; destination := "+54263" |} ];
       r_labels := ["1"; "ami-54d2a63b"; "2"];
       r_variables := {[ "name" := "foo1" ]} |} in
  (Result (Run test_csv test_mapping) = Some test_result
   ∧ test_result !! "foo1-123" = Some obj
   ∧ group test_mapping ["name"; "account_id"] "foo1-123" test_csv
     = [] ++ v :: [u])
  ∧ d = "+54263"
  ∧ filter (λ e, destination e = d) (r_destinations obj)
    = [ {| code := field v "code"; destination := d |} ]
  ∧ {| code := field u "code"; destination := d |} ∉ r_destinations obj.
Proof.
  intros v u d obj.
  assert (H1 : Result (Run test_csv test_mapping) = Some test_result)
    by compute_done.
  assert (H2 : test_result !! "foo1-123" = Some obj) by compute_done.
  assert (H3 : group test_mapping ["name"; "account_id"] "foo1-123" test_csv
               = [] ++ v :: [u]) by compute_done.
  split; [exact (conj H1 (conj H2 H3))|]. split; [compute_done|].
  destruct (C2_destination_dedup test_mapping _ _ _ test_csv test_result
              "foo1-123" obj [] [u] v test_decodes H1 H2 H3)
    as (Hone & Hdrop).
  { intros ? []%elem_of_nil. }
  split; [exact Hone|].
  apply (Hdrop u); [apply list_elem_of_here | compute_done | compute_done].
Defined.

(** C10 on the scenario: in the group ["8"], Carol's destination ["n/a"]
    has no digit and Dave's row has no destination. *)
Lemma C10_digit_free_destination_witness :
  let v : gmap string string :=
    list_to_map [("name", "Dave"); ("id", "8"); ("code", "10");
                 ("l1", "a"); ("l2", "a"); ("x", "v4"); ("y", "w4")] in
  let obj :=
    {| r_name := "Carol";
       r_destinations := [ {| code := "9"; destination := "+" |} ];
       r_labels := ["a"];
       r_variables := {[ "x" := "v4"; "y" := "w4" ]} |} in
  (Result (Run scenario_csv scenario_mapping) = Some scenario_result
   ∧ scenario_result !! "8" = Some obj
   ∧ v ∈ group scenario_mapping ["id"] "8" scenario_csv
   ∧ v !! "destination" = None)
  ∧ rowDestination scenario_mapping v
    = {| code := field v "code"; destination := "+" |}
  ∧ ∃ first,
      first ∈ group scenario_mapping ["id"] "8" scenario_csv
      ∧ filter (λ e, destination e = "+") (r_destinations obj)
        = [ {| code := field first "code"; destination := "+" |} ].
Proof.
  intros v obj.
  assert (H2 : scenario_result !! "8" = Some obj) by compute_done.
  assert (H3 : v ∈ group scenario_mapping ["id"] "8" scenario_csv).
  { replace (group scenario_mapping ["id"] "8" scenario_csv)
      with (drop 3 scenario_csv) by compute_done.
    apply list_elem_of_further, list_elem_of_here. }
  assert (H4 : v !! "destination" = None) by compute_done.
  split; [exact (conj scenario_Result (conj H2 (conj H3 H4)))|].
  destruct (C10_digit_free_destination scenario_mapping _ _ _ scenario_csv
              scenario_result "8" obj v scenario_decodes scenario_Result
              H2 H3 (or_introl H4)) as (Hplus & _ & Hone).
  split; [exact Hplus | exact Hone].
Defined.

(** * Further properties of the code *)

(** ** [stripSpaces]: decoding a string in pieces *)

Ltac decode_cases :=
  unfold utf8_DecodeRuneInString;
  repeat match goal with
  | |- context [if ?c then _ else _] => destruct c eqn:?
  end.

(** Cutting a string after a rune does not change how the rune decodes. *)
Lemma DecodeRuneInString_truncate b0 t y r n :
  utf8_DecodeRuneInString (String b0 (t +:+ y)) = (r, n) →
  (n ≤ S (String.length t))%nat →
  utf8_DecodeRuneInString (String b0 t) = (r, n).
Proof.
  destruct t as [|b1 [|b2 [|b3 t3]]];
    rewrite ?append_cons, ?append_nil_l; [| | |done];
    destruct y as [|c1 [|c2 [|c3 y']]];
    rewrite ?append_cons, ?append_nil_l, ?append_nil_r; try done;
    decode_cases; intros [= <- <-]; simpl; intros; first [done | lia].
Qed.

(** Bytes put after a string do not change how it decodes, unless they
    start with a continuation byte. *)
Lemma DecodeRuneInString_extend b0 t y r n :
  utf8_DecodeRuneInString (String b0 t) = (r, n) →
  startsClean y = true →
  utf8_DecodeRuneInString (String b0 (t +:+ y)) = (r, n).
Proof.
  destruct t as [|b1 [|b2 [|b3 t3]]];
    rewrite ?append_cons, ?append_nil_l; [| | |done];
    destruct y as [|c1 [|c2 [|c3 y']]];
    rewrite ?append_cons, ?append_nil_l, ?append_nil_r; try done;
    unfold startsClean; decode_cases; intros [= <- <-] Hc;
    try done; apply negb_true_iff, andb_false_iff in Hc;
    destruct Hc; zbool;
    repeat match goal with
    | H : context [if ?c then _ else _] |- _ => destruct c
    end; lia.
Qed.

Lemma takeBytes_length n s :
  String.length (takeBytes n s) = (n `min` String.length s)%nat.
Proof.
  revert s; induction n as [|n IH]; intros [|b t]; simpl; auto.
Qed.

Lemma takeBytes_app n a y :
  (n ≤ String.length a)%nat → takeBytes n (a +:+ y) = takeBytes n a.
Proof.
  revert a; induction n as [|n IH]; intros [|b t] Hn; try done;
    simpl in Hn; try lia.
  rewrite append_cons. cbn [takeBytes]. f_equal. apply IH. lia.
Qed.

Lemma skipBytes_app n a y :
  (n ≤ String.length a)%nat → skipBytes n (a +:+ y) = skipBytes n a +:+ y.
Proof.
  revert a; induction n as [|n IH]; intros [|b t] Hn; try done;
    simpl in Hn; try lia.
  rewrite append_cons. cbn [skipBytes]. apply IH. lia.
Qed.

Lemma append_length a y :
  String.length (a +:+ y) = (String.length a + String.length y)%nat.
Proof.
  induction a as [|b t IH]; [done|].
  rewrite append_cons. cbn [String.length]. by rewrite IH.
Qed.

Lemma append_inv_head a y z : a +:+ y = a +:+ z → y = z.
Proof.
  induction a as [|b t IH]; [done|]. rewrite !append_cons.
  intros [= ?]. auto.
Qed.

Lemma bytes_of_app (L1 L2 : list (Z * string)) :
  foldr (λ c acc, c.2 +:+ acc) EmptyString (L1 ++ L2)
  = foldr (λ c acc, c.2 +:+ acc) EmptyString L1
    +:+ foldr (λ c acc, c.2 +:+ acc) EmptyString L2.
Proof.
  induction L1 as [|c L1 IH]; [done|]. simpl.
  by rewrite IH, append_assoc.
Qed.

(** A string followed by bytes that start clean decodes to its own runes,
    then the runes of what follows. *)
Lemma rangeString_app_clean a y :
  startsClean y = true →
  rangeString (a +:+ y) = rangeString a ++ rangeString y.
Proof.
  intros Hy.
  induction a as [|b t r n Hd Hdec IH] using string_rune_ind; [done|].
  pose proof (decoded_width _ _ _ _ Hdec) as Hw.
  rewrite (rangeString_cons _ _ _ _ Hd), append_cons.
  rewrite (rangeString_cons _ _ r n)
    by by apply DecodeRuneInString_extend.
  rewrite <- append_cons, takeBytes_app, skipBytes_app, IH by lia.
  done.
Qed.

(** The runes of a string that ends where a rune ends are the runes that
    the whole string has up to there. *)
Lemma rangeString_prefix x y (L : list (Z * string)) :
  rangeString (x +:+ y) = L ++ rangeString y →
  foldr (λ c acc, c.2 +:+ acc) EmptyString L = x →
  rangeString x = L.
Proof.
  revert L.
  induction x as [|b t r n Hd Hdec IH] using string_rune_ind;
    intros L Hr Hb.
  - destruct L as [|c L]; [done|]. rewrite append_nil_l in Hr.
    apply (f_equal length) in Hr. rewrite length_app in Hr.
    simpl in Hr. lia.
  - destruct L as [|[r' ch] L]; [done|].
    destruct (utf8_DecodeRuneInString (String b (t +:+ y)))
      as [r2 n2] eqn:Hd2.
    pose proof (decoded_width _ _ _ _
                  (DecodeRuneInString_decoded _ _ _ _ Hd2)) as Hw2.
    rewrite append_cons, (rangeString_cons _ _ _ _ Hd2) in Hr.
    rewrite <- append_cons in Hr. cbn [app] in Hr.
    injection Hr as -> Hch Hrest.
    cbn [foldr snd] in Hb.
    assert (Hn2 : (n2 ≤ String.length (String b t))%nat).
    { apply (f_equal String.length) in Hb.
      rewrite append_length, <- Hch, takeBytes_length, append_cons in Hb.
      cbn [String.length] in Hb, Hw2 |- *. lia. }
    apply DecodeRuneInString_truncate in Hd2; [|simpl in Hn2; lia].
    rewrite Hd in Hd2. injection Hd2 as <- <-.
    rewrite (rangeString_cons _ _ _ _ Hd).
    rewrite takeBytes_app in Hch by done. rewrite <- Hch. f_equal.
    apply IH.
    + by rewrite <- skipBytes_app.
    + rewrite <- Hch in Hb.
      rewrite <- (take_skip_bytes n (String b t)) in Hb at 2.
      by apply append_inv_head in Hb.
Qed.

(** ** [stripSpaces]: the fields and the join *)

Lemma fieldsLoop_run f (cs rest : list (Z * string)) cur :
  Forall (λ c, f c.1 = false) cs → cs ≠ [] →
  fieldsLoop f (cs ++ rest) cur
  = fieldsLoop f rest
      (Some (default EmptyString cur
             +:+ foldr (λ c acc, c.2 +:+ acc) EmptyString cs)).
Proof.
  intros Hcs. revert cur.
  induction Hcs as [|[r ch] cs Hc Hcs IH]; intros cur Hne; [done|].
  simpl in Hc. cbn [app fieldsLoop foldr snd]. rewrite Hc.
  destruct cs as [|c' cs'].
  - cbn [app foldr]. by rewrite append_nil_r.
  - rewrite IH by done. do 2 f_equal. exact (append_assoc _ _ _).
Qed.

(** The invariant of the loop of [strings.FieldsFunc] on white space: the
    field being read has no white space and ends where a rune ends. *)
Lemma fieldsLoop_noSpace s c :
  rangeString (c +:+ s) = rangeString c ++ rangeString s →
  noSpace c →
  Forall (λ fld, fld ≠ EmptyString ∧ noSpace fld)
    (fieldsLoop unicode_IsSpace (rangeString s)
       (if decide (c = EmptyString) then None else Some c)).
Proof.
  revert c.
  induction s as [|b t r n Hd Hdec IH] using string_rune_ind;
    intros c Hc Hns.
  - cbn [rangeString rangeFrom fieldsLoop].
    case_decide; repeat constructor; done.
  - pose proof (decoded_width _ _ _ _ Hdec) as Hw.
    rewrite (rangeString_cons _ _ _ _ Hd) in Hc |- *.
    set (ch := takeBytes n (String b t)) in *.
    set (s' := skipBytes n (String b t)) in *.
    assert (Hs : String b t = ch +:+ s')
      by (symmetry; apply take_skip_bytes).
    assert (Hch : ch ≠ EmptyString)
      by (subst ch; destruct n; [lia | done]).
    cbn [fieldsLoop].
    destruct (unicode_IsSpace r) eqn:Hr.
    + specialize (IH EmptyString eq_refl).
      rewrite decide_True in IH by done.
      case_decide; [|constructor; [done|]]; apply IH; constructor.
    + assert (Hc' : rangeString (c +:+ ch) = rangeString c ++ [(r, ch)]).
      { apply (rangeString_prefix _ s').
        - by rewrite append_assoc, <- Hs, Hc, <- app_assoc.
        - rewrite bytes_of_app, rangeString_bytes. cbn [foldr snd].
          by rewrite append_nil_r. }
      assert (Hnew : (c +:+ ch) ≠ EmptyString).
      { intros Hx. apply Hch. destruct c; [done | discriminate]. }
      specialize (IH (c +:+ ch)). rewrite decide_False in IH by done.
      replace (default EmptyString
                 (if decide (c = EmptyString) then None else Some c))
        with c by (by case_decide).
      apply IH.
      * by rewrite append_assoc, <- Hs, Hc, Hc', <- app_assoc.
      * unfold noSpace. rewrite Hc'. apply Forall_app. split; [done|].
        by repeat constructor.
Qed.

(** The fields that [strings.Fields] returns are not empty and have no
    white space. *)
Lemma Fields_noSpace s :
  Forall (λ fld, fld ≠ EmptyString ∧ noSpace fld) (strings_Fields s).
Proof.
  apply (fieldsLoop_noSpace s EmptyString); [done | constructor].
Qed.

(** [strings.Fields] undoes [strings.Join] with one space. *)
Lemma Fields_Join (fs : list string) :
  Forall (λ fld, fld ≠ EmptyString ∧ noSpace fld) fs →
  strings_Fields (strings_Join fs " ") = fs.
Proof.
  unfold strings_Fields, strings_FieldsFunc.
  induction 1 as [|fld fs [Hne Hns] Hfs IH]; [done|].
  assert (Hrun : ∀ rest,
    fieldsLoop unicode_IsSpace (rangeString fld ++ rest) None
    = fieldsLoop unicode_IsSpace rest (Some fld)).
  { intros rest. rewrite fieldsLoop_run; [|done|].
    - by rewrite rangeString_bytes.
    - destruct fld; [done|]. unfold rangeString. cbn [rangeFrom].
      by destruct (utf8_DecodeRuneInString _). }
  destruct fs as [|g fs'].
  - cbn [strings_Join]. rewrite <- (app_nil_r (rangeString fld)).
    by rewrite Hrun.
  - change (strings_Join (fld :: g :: fs') " ")
      with (fld +:+ " " +:+ strings_Join (g :: fs') " ").
    rewrite rangeString_app_clean by done.
    rewrite Hrun, append_cons, append_nil_l.
    rewrite (rangeString_cons _ _ 32 1%nat) by done.
    cbn [fieldsLoop skipBytes]. change (unicode_IsSpace 32) with true.
    cbv iota. by rewrite IH.
Qed.

(** X1 ([stripSpaces] is idempotent).  [stripSpaces] leaves the fields of a
    string as they are, so applying it a second time changes nothing:
    what [Run] stores as a name, [Create] and [Update] send unchanged. *)
Theorem X1_stripSpaces_idempotent (s : string) :
  strings_Fields (stripSpaces s) = strings_Fields s
  ∧ stripSpaces (stripSpaces s) = stripSpaces s.
Proof.
  assert (H : strings_Fields (stripSpaces s) = strings_Fields s)
    by apply Fields_Join, Fields_noSpace.
  split; [done|]. unfold stripSpaces at 1. by rewrite H.
Qed.

(** X2 (words joined by one space are a fixed point).  For words that are
    not empty and have no white space, [strings.Fields] gives back the words
    from their join with one space, and [stripSpaces] returns the join
    unchanged; a single such word is returned as it is. *)
Theorem X2_stripSpaces_words (words : list string) :
  Forall (λ w, w ≠ EmptyString ∧ noSpace w) words →
  strings_Fields (strings_Join words " ") = words
  ∧ stripSpaces (strings_Join words " ") = strings_Join words " "
  ∧ (∀ w, words = [w] → stripSpaces w = w).
Proof.
  intros Hw.
  assert (H : strings_Fields (strings_Join words " ") = words)
    by by apply Fields_Join.
  split; [done|]. split.
  - unfold stripSpaces. by rewrite H.
  - intros w ->. unfold stripSpaces. cbn [strings_Join] in H. by rewrite H.
Qed.

Lemma X2_stripSpaces_words_witness :
  Forall (λ w, w ≠ EmptyString ∧ noSpace w) ["Alice"; "A"]
  ∧ strings_Fields (strings_Join ["Alice"; "A"] " ") = ["Alice"; "A"]
  ∧ stripSpaces (strings_Join ["Alice"; "A"] " ")
    = strings_Join ["Alice"; "A"] " ".
Proof.
  assert (H : Forall (λ w, w ≠ EmptyString ∧ noSpace w) ["Alice"; "A"]).
  { repeat constructor; try discriminate;
      unfold noSpace; vm_compute; repeat constructor. }
  split; [exact H|].
  destruct (X2_stripSpaces_words ["Alice"; "A"] H) as (H1 & H2 & _).
  split; [exact H1 | exact H2].
Defined.

Lemma rangeString_nonempty s : s ≠ EmptyString → rangeString s ≠ [].
Proof.
  destruct s; [done|]. intros _. unfold rangeString. cbn [rangeFrom].
  by destruct (utf8_DecodeRuneInString _).
Qed.

(** X3 (the shape of what [stripSpaces] returns).  The runes of
    [stripSpaces s] are the runes of the fields of [s], in order, with
    exactly one U+0020 between two fields; every field has at least one
    rune and no white space, so the result has no white space at its ends
    and none but single U+0020. *)
Theorem X3_stripSpaces_shape (s : string) :
  map fst (rangeString (stripSpaces s))
  = interleave 32 (map (λ fld, map fst (rangeString fld)) (strings_Fields s))
  ∧ Forall (λ fld, rangeString fld ≠ []
                   ∧ Forall (λ c, unicode_IsSpace c.1 = false)
                            (rangeString fld))
           (strings_Fields s).
Proof.
  pose proof (Fields_noSpace s) as Hf. unfold stripSpaces. split.
  - induction Hf as [|fld fs [Hne Hns] Hfs IH]; [done|].
    destruct fs as [|g fs']; [done|].
    change (strings_Join (fld :: g :: fs') " ")
      with (fld +:+ " " +:+ strings_Join (g :: fs') " ").
    rewrite rangeString_app_clean by done.
    rewrite append_cons, append_nil_l.
    rewrite (rangeString_cons _ _ 32 1%nat) by done.
    cbn [skipBytes]. rewrite map_app. cbn [map fst interleave].
    by rewrite IH.
  - eapply Forall_impl; [exact Hf|]. intros fld [Hne Hns].
    split; [by apply rangeString_nonempty | done].
Qed.

(** X4 (normalization keeps the digit bytes).  [normalize x] is ["+"]
    followed by the bytes ['0'..'9'] of [x], in order, whatever runes the
    other bytes of [x] make, valid UTF-8 or not; so it has one byte more
    than [x] at most, and it is ["+" + x] when [x] has digits only. *)
Theorem X4_normalize_digits (x : string) :
  normalize x = String "+" (filterBytes isDigitByte x)
  ∧ allBytes isDigitByte (filterBytes isDigitByte x) = true
  ∧ (String.length (normalize x) ≤ S (String.length x))%nat
  ∧ (allBytes isDigitByte x = true → normalize x = String "+" x).
Proof.
  assert (H : normalize x = String "+" (filterBytes isDigitByte x)).
  { unfold normalize. by rewrite ReplaceAllString_digits. }
  rewrite H. repeat split.
  - apply filterBytes_all.
  - cbn [String.length]. apply le_n_S. clear H.
    induction x as [|b t IH]; [done|]. cbn [filterBytes].
    destruct (isDigitByte b); cbn [String.length]; lia.
  - intros Hx. by rewrite filterBytes_id.
Qed.

(** X5 (punctuation does not matter).  Bytes that are not digits, put
    anywhere in a destination, do not change what it is normalized to; two
    rows whose destinations differ in such bytes only have the same
    destination. *)
Theorem X5_normalize_punctuation (a sep b : string) :
  allBytes (λ c, negb (isDigitByte c)) sep = true →
  normalize (a +:+ sep +:+ b) = normalize (a +:+ b).
Proof.
  intros Hsep. unfold normalize. rewrite !ReplaceAllString_digits.
  by rewrite !filterBytes_app, (filterBytes_none _ sep), append_nil_l.
Qed.

Lemma X5_normalize_punctuation_witness :
  allBytes (λ c, negb (isDigitByte c)) ") - " = true
  ∧ normalize ("+38 (044" +:+ ") - " +:+ "123")
    = normalize ("+38 (044" +:+ "123").
Proof.
  assert (H : allBytes (λ c, negb (isDigitByte c)) ") - " = true)
    by compute_done.
  split; [exact H|].
  exact (X5_normalize_punctuation "+38 (044" ") - " "123" H).
Defined.

(** ** [listToLabels] and [mapToVariables] *)

Lemma listToLabels_from_strings labels (ss : list types_String)
    (rest : list attr_Value) :
  listToLabels_from labels ((AttrString <$> ss) ++ rest)
  = listToLabels_from (labels ++ (ValueString <$> ss)) rest.
Proof.
  revert labels. induction ss as [|s ss IH]; intros labels.
  - by rewrite app_nil_r.
  - cbn [fmap list_fmap app listToLabels_from].
    by rewrite IH, <- app_assoc.
Qed.

(** X6 ([listToLabels]).  A list of strings gives their values in order,
    a null or unknown string as [""]; a list with an element that is not
    a string gives the error that names the first such element, whatever
    comes after it. *)
Theorem X6_listToLabels (ss : list types_String) (rendering : string)
    (rest : list attr_Value) :
  listToLabels (AttrString <$> ss) = Ok (ValueString <$> ss)
  ∧ listToLabels ((AttrString <$> ss) ++ AttrOther rendering :: rest)
    = Err ("invalid label value for " +:+ rendering)
  ∧ listToLabels [AttrString StringNull; AttrString StringUnknown]
    = Ok [""; ""].
Proof.
  unfold listToLabels. repeat split.
  - rewrite <- (app_nil_r (AttrString <$> ss)).
    by rewrite listToLabels_from_strings.
  - by rewrite listToLabels_from_strings.
Qed.

Lemma mapToVariables_from_strings (elems : list (string * attr_Value))
    (variables : gmap string string) :
  Forall (λ e, ∃ s, e.2 = AttrString s) elems →
  NoDup elems.*1 →
  ∃ vars,
    mapToVariables_from variables elems = Ok vars
    ∧ ∀ k, vars !! k
           = match (list_to_map elems : gmap string attr_Value) !! k with
             | Some (AttrString s) => Some (ValueString s)
             | _ => variables !! k
             end.
Proof.
  intros Hs. revert variables.
  induction Hs as [|[k0 v0] elems [s Hv] Hs IH]; intros variables Hnd.
  - by exists variables.
  - simpl in Hv. subst v0. apply NoDup_cons in Hnd as [Hk0 Hnd].
    cbn [mapToVariables_from].
    destruct (IH (<[k0:=ValueString s]> variables) Hnd) as (vars & -> & Hl).
    exists vars. split; [done|]. intros k. rewrite Hl.
    cbn [list_to_map foldr]. destruct (decide (k0 = k)) as [->|Hne].
    + rewrite !lookup_insert_eq.
      by rewrite (not_elem_of_list_to_map_1 _ _ Hk0).
    + rewrite !lookup_insert_ne by done.
      destruct (list_to_map elems !! k) as [[]|]; try done.
Qed.

Lemma mapToVariables_from_other (pre post : list (string * attr_Value))
    (variables : gmap string string) k rendering :
  Forall (λ e, ∃ s, e.2 = AttrString s) pre →
  mapToVariables_from variables (pre ++ (k, AttrOther rendering) :: post)
  = Err ("invalid variable value for " +:+ k +:+ ": " +:+ rendering).
Proof.
  intros Hpre. revert variables.
  induction Hpre as [|[k0 v0] pre [s Hv] _ IH]; intros variables; [done|].
  simpl in Hv. subst v0. apply IH.
Qed.

Lemma first_other (elems : list (string * attr_Value)) :
  Forall (λ e, ∃ s, e.2 = AttrString s) elems
  ∨ ∃ pre k rendering post,
      elems = pre ++ (k, AttrOther rendering) :: post
      ∧ Forall (λ e, ∃ s, e.2 = AttrString s) pre.
Proof.
  induction elems as [|[k [s|r]] elems IH].
  - left. constructor.
  - destruct IH as [IH|(pre & k' & r & post & -> & Hpre)].
    + left. constructor; [by eexists | done].
    + right. exists ((k, AttrString s) :: pre), k', r, post.
      split; [done|]. constructor; [by eexists | done].
  - right. exists [], k, r, elems. split; [done | constructor].
Qed.

(** Whatever the order of the visit, a map of strings gives the map of
    their values. *)
Lemma mapToVariables_strings (ss : gmap string types_String)
    (visit : list (string * attr_Value)) :
  visit ≡ₚ map_to_list (AttrString <$> ss) →
  mapToVariables visit = Ok (ValueString <$> ss).
Proof.
  intros Hp. unfold mapToVariables.
  assert (Hnd : NoDup visit.*1).
  { rewrite Hp. apply NoDup_fst_map_to_list. }
  destruct (mapToVariables_from_strings visit ∅) as (vars & -> & Hl);
    [|done|].
  - apply Forall_forall. intros [k v] Hin. rewrite Hp in Hin.
    apply elem_of_map_to_list in Hin. rewrite lookup_fmap in Hin.
    destruct (ss !! k) as [s|]; [|done]. injection Hin as <-. by exists s.
  - f_equal. apply map_eq. intros k. rewrite Hl.
    rewrite (list_to_map_proper _ _ Hnd Hp), list_to_map_to_list.
    rewrite !lookup_fmap, lookup_empty. by destruct (ss !! k).
Qed.

(** X7 ([mapToVariables]).  Whatever the order in which Go visits the
    map: a map of strings gives the map of their values, a null or unknown
    string as [""]; a map with a value that is not a string gives an error
    that names a key with such a value. *)
Theorem X7_mapToVariables (m : gmap string attr_Value)
    (visit : list (string * attr_Value)) :
  visit ≡ₚ map_to_list m →
  (∀ ss : gmap string types_String,
     m = AttrString <$> ss → mapToVariables visit = Ok (ValueString <$> ss))
  ∧ ((∃ k rendering, m !! k = Some (AttrOther rendering)) →
     ∃ k rendering,
       m !! k = Some (AttrOther rendering)
       ∧ mapToVariables visit
         = Err ("invalid variable value for " +:+ k +:+ ": " +:+ rendering)).
Proof.
  intros Hp. split.
  - intros ss ->. by apply mapToVariables_strings.
  - intros (k & r & Hk).
    destruct (first_other visit) as [Hall|(pre & k' & r' & post & Hv & Hpre)].
    + exfalso. apply elem_of_map_to_list in Hk. rewrite <- Hp in Hk.
      rewrite Forall_forall in Hall. by destruct (Hall _ Hk) as [s ?].
    + exists k', r'. split.
      * apply elem_of_map_to_list. rewrite <- Hp, Hv.
        apply elem_of_app. right. by left.
      * unfold mapToVariables. rewrite Hv.
        by apply mapToVariables_from_other.
Qed.

Lemma X7_mapToVariables_witness :
  let ss : gmap string types_String :=
    {[ "a" := StringValue "1"; "b" := StringNull ]} in
  let m : gmap string attr_Value := AttrString <$> ss in
  let visit := reverse (map_to_list m) in
  visit ≡ₚ map_to_list m
  ∧ mapToVariables visit = Ok (ValueString <$> ss)
  ∧ ValueString <$> ss = {[ "a" := "1"; "b" := "" ]}.
Proof.
  intros ss m visit.
  assert (H : visit ≡ₚ map_to_list m) by apply reverse_Permutation.
  split; [exact H|]. split; [|compute_done].
  exact (proj1 (X7_mapToVariables m visit H) ss eq_refl).
Defined.

(** ** [contactToTF] *)

(** X8 (labels come back as they were sent).  The labels that
    [contactToTF] puts in the state are known strings: [listToLabels] takes
    them without error and gives the labels of the payload, in order. *)
Theorem X8_contactToTF_labels (c : apiContact) (data : list string) :
  in_Labels c = Some data →
  ∃ l, m_Labels (contactToTF c) = Some l
       ∧ length l = length data
       ∧ listToLabels l = Ok data.
Proof.
  intros Hc. unfold contactToTF. cbn [m_Labels]. rewrite Hc.
  eexists. split; [done|].
  rewrite (fold_left_snoc_map (λ v, AttrString (StringValue v))).
  cbn [app]. split; [by rewrite length_map|].
  replace (map (λ v, AttrString (StringValue v)) data)
    with (AttrString <$> (StringValue <$> data))
    by by rewrite <- list_fmap_compose.
  unfold listToLabels.
  rewrite <- (app_nil_r (AttrString <$> _)), listToLabels_from_strings.
  cbn [listToLabels_from app]. f_equal.
  rewrite <- list_fmap_compose. apply list_fmap_id.
Qed.

Lemma X8_contactToTF_labels_witness :
  let c := {| in_ID := "7"; in_Etag := "e1"; in_Name_CommonName := "Alice A";
              in_About := ""; in_Labels := Some ["a"; "b"]; 
              in_Variables := None; in_Phones := None |} in
  in_Labels c = Some ["a"; "b"]
  ∧ ∃ l, m_Labels (contactToTF c) = Some l
         ∧ length l = length ["a"; "b"]
         ∧ listToLabels l = Ok ["a"; "b"].
Proof.
  intros c. split; [reflexivity|].
  exact (X8_contactToTF_labels c ["a"; "b"] eq_refl).
Defined.

Lemma variables_of_payload (data : list apiVariable)
    (acc : gmap string types_String) :
  fold_left (λ variables v,
               <[in_Key v := AttrString (StringValue (in_Value v))]> variables)
            data (AttrString <$> acc)
  = AttrString
      <$> fold_left (λ ss v, <[in_Key v := StringValue (in_Value v)]> ss)
                    data acc.
Proof.
  revert acc. induction data as [|v data IH]; intros acc; [done|].
  cbn [fold_left]. by rewrite <- IH, fmap_insert.
Qed.

Lemma variables_last (data : list apiVariable) k :
  fold_left (λ ss v, <[in_Key v := StringValue (in_Value v)]> ss) data
            (∅ : gmap string types_String) !! k
  = (λ v, StringValue (in_Value v))
      <$> last (filter (λ v, in_Key v = k) data).
Proof.
  induction data as [|v data IH] using rev_ind; [done|].
  rewrite fold_left_app, filter_app. cbn [fold_left].
  rewrite filter_cons, filter_nil.
  destruct (decide (in_Key v = k)) as [<-|Hne].
  - by rewrite lookup_insert_eq, last_snoc.
  - by rewrite lookup_insert_ne, app_nil_r.
Qed.

(** X9 (variables come back, the last of a repeated key).  The variables
    that [contactToTF] puts in the state are known strings:
    [mapToVariables] takes them without error, whatever the order of its
    visit, and gives for every key the rendering of the last variable of
    the payload with that key. *)
Theorem X9_contactToTF_variables (c : apiContact) (data : list apiVariable) :
  in_Variables c = Some data →
  ∃ m, m_Variables (contactToTF c) = Some m
       ∧ ∀ visit, visit ≡ₚ map_to_list m →
           ∃ vars,
             mapToVariables visit = Ok vars
             ∧ ∀ k, vars !! k
                    = in_Value <$> last (filter (λ v, in_Key v = k) data).
Proof.
  intros Hc. unfold contactToTF. cbn [m_Variables]. rewrite Hc.
  eexists. split; [done|]. intros visit Hp.
  rewrite <- (fmap_empty AttrString), variables_of_payload in Hp.
  rewrite (mapToVariables_strings _ _ Hp).
  eexists. split; [done|]. intros k.
  rewrite lookup_fmap, variables_last.
  by destruct (last _).
Qed.

Lemma X9_contactToTF_variables_witness :
  let data := [ {| in_Key := "x"; in_Value := "1" |};
                {| in_Key := "y"; in_Value := "true" |};
                {| in_Key := "x"; in_Value := "2" |} ] in
  let c := {| in_ID := "7"; in_Etag := "e1"; in_Name_CommonName := "Alice A";
              in_About := ""; in_Labels := None;
              in_Variables := Some data; in_Phones := None |} in
  in_Variables c = Some data
  ∧ ∃ m, m_Variables (contactToTF c) = Some m
         ∧ ∀ visit, visit ≡ₚ map_to_list m →
             ∃ vars,
               mapToVariables visit = Ok vars
               ∧ ∀ k, vars !! k
                      = in_Value <$> last (filter (λ v, in_Key v = k) data).
Proof.
  intros data c. split; [reflexivity|].
  exact (X9_contactToTF_variables c data eq_refl).
Defined.

(** ** [Run]: the errors *)

Lemma listToLabels_cases (l : list attr_Value) :
  (∃ ss, l = AttrString <$> ss)
  ∨ ∃ ss rendering rest, l = (AttrString <$> ss) ++ AttrOther rendering :: rest.
Proof.
  induction l as [|[s|r] l IH].
  - left. by exists [].
  - destruct IH as [[ss ->]|(ss & r & rest & ->)].
    + left. by exists (s :: ss).
    + right. by exists (s :: ss), r, rest.
  - right. by exists [], r, l.
Qed.

Lemma listToLabels_Ok (ss : list types_String) :
  listToLabels (AttrString <$> ss) = Ok (ValueString <$> ss).
Proof.
  unfold listToLabels. rewrite <- (app_nil_r (AttrString <$> ss)).
  by rewrite listToLabels_from_strings.
Qed.

Lemma listToLabels_Err (ss : list types_String) rendering rest :
  listToLabels ((AttrString <$> ss) ++ AttrOther rendering :: rest)
  = Err ("invalid label value for " +:+ rendering).
Proof. unfold listToLabels. by rewrite listToLabels_from_strings. Qed.

(** X10 (the errors of [Run]).  [Run] ends without error exactly when the
    three lists of the mapping hold strings only.  Otherwise it returns no
    result and logs nothing, whatever the rows, and the error names the
    first element that is not a string of the first such list, the lists
    taken in the order [group_by_fields], [label_fields],
    [variable_fields]. *)
Theorem X10_Run_errors (elements : list (gmap string string))
    (data : UniqueContactModel) :
  (Error (Run elements data) = None
   ↔ ∃ groupByFields labelFields variableFields,
       decodes data groupByFields labelFields variableFields)
  ∧ (Error (Run elements data) ≠ None →
     Result (Run elements data) = None
     ∧ Logged (Run elements data) = []
     ∧ Run elements data = Run [] data)
  ∧ (∀ ss rendering rest,
       GroupByFields data = (AttrString <$> ss) ++ AttrOther rendering :: rest →
       Error (Run elements data)
       = Some ("invalid label value for " +:+ rendering))
  ∧ (∀ gs ss rendering rest,
       GroupByFields data = AttrString <$> gs →
       Labels data = (AttrString <$> ss) ++ AttrOther rendering :: rest →
       Error (Run elements data)
       = Some ("invalid label value for " +:+ rendering))
  ∧ (∀ gs ls ss rendering rest,
       GroupByFields data = AttrString <$> gs →
       Labels data = AttrString <$> ls →
       Variables data = (AttrString <$> ss) ++ AttrOther rendering :: rest →
       Error (Run elements data)
       = Some ("invalid label value for " +:+ rendering)).
Proof.
  assert (Hcases :
    (∃ gs ls vs, decodes data gs ls vs ∧ Error (Run elements data) = None)
    ∨ (Error (Run elements data) ≠ None
       ∧ Result (Run elements data) = None
       ∧ Logged (Run elements data) = []
       ∧ Run elements data = Run [] data
       ∧ ¬ ∃ gs ls vs, decodes data gs ls vs)).
  { unfold Run, decodes.
    destruct (listToLabels_cases (GroupByFields data))
      as [[gs Hg]|(gs & rg & restg & Hg)];
    destruct (listToLabels_cases (Labels data))
      as [[ls Hl]|(ls & rl & restl & Hl)];
    destruct (listToLabels_cases (Variables data))
      as [[vs Hv]|(vs & rv & restv & Hv)];
    rewrite Hg, Hl, Hv, ?listToLabels_Ok, ?listToLabels_Err;
    cbn [mbind result_bind mret result_ret Error Result Logged];
    first [ left; by eexists _, _, _
          | right; repeat split; try done;
            by intros (? & ? & ? & ? & ? & ?) ]. }
  split; [|split; [|split; [|split]]].
  - destruct Hcases as [(gs & ls & vs & Hd & He)|(He & _ & _ & _ & Hn)].
    + split; [by eexists _, _, _ | done].
    + split; [done | by intros ?].
  - intros He.
    by destruct Hcases as [(gs & ls & vs & Hd & He')|(_ & ? & ? & ? & _)].
  - intros ss r rest Hg. unfold Run.
    by rewrite Hg, listToLabels_Err.
  - intros gs ss r rest Hg Hl. unfold Run.
    by rewrite Hg, Hl, listToLabels_Ok, listToLabels_Err.
  - intros gs ls ss r rest Hg Hl Hv. unfold Run.
    by rewrite Hg, Hl, Hv, !listToLabels_Ok, listToLabels_Err.
Qed.

(** ** [Run]: what the result holds *)

Lemma firstOccurrences_NoDup {A} (key : A → string) l :
  NoDup (key <$> firstOccurrences key l).
Proof.
  induction l as [|x l IH]; [constructor|].
  cbn [firstOccurrences]. rewrite fmap_cons. apply NoDup_cons. split.
  - intros (y & Hy & [Hne _]%list_elem_of_filter)%list_elem_of_fmap.
    by apply Hne.
  - revert IH. generalize (firstOccurrences key l). intros l' Hl'.
    induction l' as [|y l' IH']; [constructor|].
    rewrite fmap_cons in Hl'. apply NoDup_cons in Hl' as [Hy Hl'].
    rewrite filter_cons. case_decide; [|by apply IH'].
    rewrite fmap_cons. apply NoDup_cons. split; [|by apply IH'].
    intros (z & Hz & [_ Hin]%list_elem_of_filter)%list_elem_of_fmap.
    apply Hy. apply list_elem_of_fmap. by exists z.
Qed.

Lemma firstOccurrences_covers {A} (key : A → string) l x :
  x ∈ l → ∃ y, y ∈ firstOccurrences key l ∧ key y = key x.
Proof.
  induction l as [|z l IH]; [by intros ?%elem_of_nil|].
  cbn [firstOccurrences]. intros [->|Hx]%elem_of_cons.
  - exists z. split; [by left | done].
  - destruct (decide (key x = key z)) as [Heq|Hne].
    + exists z. split; [by left | done].
    + destruct (IH Hx) as (y & Hy & Hk). exists y. split; [|done].
      right. apply list_elem_of_filter. split; [congruence | done].
Qed.

Lemma firstOccurrences_length {A} (key : A → string) l :
  (length (firstOccurrences key l) ≤ length l)%nat.
Proof.
  induction l as [|x l IH]; [done|]. cbn [firstOccurrences length].
  pose proof (length_filter (λ y, key y ≠ key x) (firstOccurrences key l)).
  lia.
Qed.

Lemma firstOccurrences_id_elem_of (l : list string) x :
  x ∈ firstOccurrences id l ↔ x ∈ l.
Proof.
  split; [apply firstOccurrences_elem_of|].
  intros Hx. destruct (firstOccurrences_covers id l x Hx) as (y & Hy & Hk).
  unfold id in Hk. by subst y.
Qed.

Lemma stripSpaces_stripSpaces s : stripSpaces (stripSpaces s) = stripSpaces s.
Proof.
  unfold stripSpaces.
  by rewrite (Fields_Join _ (Fields_noSpace s)).
Qed.

(** The results of [Run] on two lists of rows that have the same groups. *)
Lemma Result_groups data groupByFields labelFields variableFields
    (l1 l2 : list (gmap string string)) :
  decodes data groupByFields labelFields variableFields →
  (∀ k, group data groupByFields k l1 = group data groupByFields k l2) →
  Result (Run l1 data) = Result (Run l2 data).
Proof.
  intros Hdata Hg. rewrite !(Run_decoded _ _ _ _ Hdata).
  cbn [Result]. do 2 f_equal. apply map_eq. intros k.
  by rewrite !loop_seen, Hg.
Qed.

Section Results.
Variable data : UniqueContactModel.
Variables groupByFields labelFields variableFields : list string.

Local Abbreviation nameField := (ValueString (NameField data)).
Local Abbreviation codeField := (ValueString (CodeField data)).
Local Abbreviation destinationField := (ValueString (DestinationField data)).
Local Abbreviation decoded_mapping :=
  (decodes data groupByFields labelFields variableFields).
Local Abbreviation group_of := (group data groupByFields).

(** X11 (the order of rows of different groups does not matter).  The
    result of [Run] depends on the rows of every group in their order
    only: two rows that follow each other can change places when one of
    them is skipped or their keys differ. *)
Theorem X11_group_order :
  decoded_mapping →
  (∀ l1 l2, (∀ k, group_of k l1 = group_of k l2) →
            Result (Run l1 data) = Result (Run l2 data))
  ∧ (∀ before u v after,
       stripSpaces (field u nameField) = EmptyString
       ∨ stripSpaces (field v nameField) = EmptyString
       ∨ recordKey data groupByFields u ≠ recordKey data groupByFields v →
       Result (Run (before ++ u :: v :: after) data)
       = Result (Run (before ++ v :: u :: after) data)).
Proof.
  intros Hdata. split.
  - intros l1 l2.
    by apply (Result_groups data groupByFields labelFields variableFields).
  - intros before u v after Huv.
    apply (Result_groups data groupByFields labelFields variableFields);
      [done|]. intros k. unfold group.
    rewrite !filter_app. f_equal. rewrite !filter_cons.
    unfold recordName in *. repeat case_decide; try done.
    exfalso. destruct Huv as [?|[?|Hne]]; [tauto..|].
    apply Hne. destruct_and!. congruence.
Qed.

(** X12 (the destinations of a contact).  In a contact of the result no
    two destinations have the same string; every one is the destination
    of a row of the group, a ["+"] followed by digits only, and the
    normalized destination of every row of the group is among them; there
    is at least one, and at most as many as the group has rows. *)
Theorem X12_destinations (elements : list (gmap string string))
    (res : gmap string returnObject) (k : string) (obj : returnObject) :
  decoded_mapping →
  Result (Run elements data) = Some res →
  res !! k = Some obj →
  NoDup (destination <$> r_destinations obj)
  ∧ (∀ d, d ∈ r_destinations obj →
          (∃ v, v ∈ group_of k elements
                ∧ d = {| code := field v codeField;
                         destination :=
                           normalize (field v destinationField) |})
          ∧ ∃ digits, destination d = String "+" digits
                      ∧ allBytes isDigitByte digits = true)
  ∧ (∀ v, v ∈ group_of k elements →
          ∃ d, d ∈ r_destinations obj
               ∧ destination d = normalize (field v destinationField))
  ∧ (1 ≤ length (r_destinations obj) ≤ length (group_of k elements))%nat.
Proof.
  intros Hdata Hres Hk.
  destruct (Result_group _ _ _ _ Hdata _ _ _ _ Hres Hk)
    as (first & rest & Hg & ->).
  cbn [r_destinations]. rewrite Hg.
  split; [apply firstOccurrences_NoDup|]. split; [|split].
  - intros d Hd.
    apply firstOccurrences_elem_of, list_elem_of_fmap in Hd
      as (v & -> & Hv).
    split; [by exists v|].
    exists (filterBytes isDigitByte (field v destinationField)).
    cbn [rowDestination destination]. unfold normalize.
    rewrite ReplaceAllString_digits. split; [done|].
    apply filterBytes_all.
  - intros v Hv.
    destruct (firstOccurrences_covers destination
                (rowDestination data <$> first :: rest)
                (rowDestination data v)) as (d & Hd & Hkey).
    { by apply list_elem_of_fmap_2. }
    by exists d.
  - split.
    + cbn [fmap list_fmap firstOccurrences length]. lia.
    + etrans; [apply firstOccurrences_length|]. by rewrite length_fmap.
Qed.

(** X13 (the name of a contact).  The name of a contact of the result is
    not empty and is a fixed point of [stripSpaces]: the [stripSpaces]
    that [Create] and [Update] apply to a name sends it unchanged. *)
Theorem X13_names (elements : list (gmap string string))
    (res : gmap string returnObject) (k : string) (obj : returnObject) :
  decoded_mapping →
  Result (Run elements data) = Some res →
  res !! k = Some obj →
  r_name obj ≠ EmptyString
  ∧ stripSpaces (r_name obj) = r_name obj
  ∧ k ≠ EmptyString.
Proof.
  intros Hdata Hres Hk.
  destruct (Result_group _ _ _ _ Hdata _ _ _ _ Hres Hk)
    as (first & rest & Hg & ->).
  assert (Hin : first ∈ group_of k elements) by (rewrite Hg; by left).
  apply list_elem_of_filter in Hin as [[Hn Hkey] _].
  cbn [r_name]. repeat split; [done | apply stripSpaces_stripSpaces |].
  rewrite <- Hkey. unfold recordKey.
  rewrite groupKey_as_spec. unfold groupKey_spec.
  destruct (filter _ _) as [|x vals] eqn:Hf; [done|].
  intros Hj. apply strings_Join_empty in Hj; [done|].
  rewrite <- Hf. apply list.Forall_forall.
  by intros y [? _]%list_elem_of_filter.
Qed.

(** X14 (the labels of a contact).  A string is a label of a contact of
    the result exactly when it is the value of a label field in a row of
    the group; a label field that a row lacks gives the label [""].
    There is no label exactly when there is no label field. *)
Theorem X14_labels (elements : list (gmap string string))
    (res : gmap string returnObject) (k : string) (obj : returnObject) :
  decoded_mapping →
  Result (Run elements data) = Some res →
  res !! k = Some obj →
  (∀ x, x ∈ r_labels obj
        ↔ ∃ v f, v ∈ group_of k elements ∧ f ∈ labelFields ∧ field v f = x)
  ∧ (∀ v f, v ∈ group_of k elements → f ∈ labelFields → v !! f = None →
            EmptyString ∈ r_labels obj)
  ∧ (r_labels obj = [] ↔ labelFields = []).
Proof.
  intros Hdata Hres Hk.
  destruct (Result_group _ _ _ _ Hdata _ _ _ _ Hres Hk)
    as (first & rest & Hg & ->).
  cbn [r_labels]. rewrite Hg.
  assert (Hmem : ∀ x,
    x ∈ firstOccurrences id
          ((first :: rest) ≫= λ v, map (field v) labelFields)
    ↔ ∃ v f, v ∈ first :: rest ∧ f ∈ labelFields ∧ field v f = x).
  { intros x. rewrite firstOccurrences_id_elem_of, list_elem_of_bind.
    split.
    - intros (v & (f & -> & Hf)%list_elem_of_fmap & Hv). by exists v, f.
    - intros (v & f & Hv & Hf & <-). exists v. split; [|done].
      by apply list_elem_of_fmap_2. }
  split; [done|]. split.
  - intros v f Hv Hf Hnone. apply Hmem. exists v, f.
    repeat split; [done..|]. unfold field. by rewrite Hnone.
  - split.
    + intros Hnil. destruct labelFields as [|f fs] eqn:Hlf; [done|].
      exfalso. eapply (elem_of_nil (field first f)). rewrite <- Hnil.
      apply Hmem. exists first, f. repeat split; by left.
    + intros Hnil. rewrite Hnil.
      assert (Hb : ∀ g : list (gmap string string),
                g ≫= (λ v, map (field v) []) = []).
      { induction g as [|v g IH]; [done|]. by rewrite bind_cons, IH. }
      by rewrite Hb.
Qed.


Lemma stripSpaces_nonempty s : stripSpaces s ≠ EmptyString → s ≠ EmptyString.
Proof. by intros H ->. Qed.

Lemma recordKey_name_only (w : gmap string string) :
  groupByFields = [nameField] →
  stripSpaces (field w nameField) ≠ EmptyString →
  recordKey data groupByFields w = field w nameField.
Proof.
  intros Hgb Hw. unfold recordKey. rewrite groupKey_as_spec, Hgb.
  unfold groupKey_spec. cbn [map].
  by rewrite filter_cons_True by by apply stripSpaces_nonempty.
Qed.

(** X15 (grouping by the name field uses the raw name).  When the name
    field is the one group-by field, the key of a row is the raw value of
    its name, not the normalized one: two rows whose names differ in white
    space only are two contacts of the result, with the same name. *)
Theorem X15_raw_name_keys (elements : list (gmap string string))
    (res : gmap string returnObject) (u v : gmap string string) :
  groupByFields = [nameField] →
  decoded_mapping →
  Result (Run elements data) = Some res →
  u ∈ elements → v ∈ elements →
  stripSpaces (field u nameField) ≠ EmptyString →
  stripSpaces (field v nameField) = stripSpaces (field u nameField) →
  field u nameField ≠ field v nameField →
  ∃ ou ov,
    res !! field u nameField = Some ou
    ∧ res !! field v nameField = Some ov
    ∧ r_name ou = stripSpaces (field u nameField)
    ∧ r_name ov = r_name ou.
Proof.
  intros Hgb Hdata Hres Hu Hv Hnu Hnv Hne.
  assert (Hat : ∀ w, w ∈ elements →
    stripSpaces (field w nameField) ≠ EmptyString →
    ∃ o, res !! field w nameField = Some o
         ∧ r_name o = stripSpaces (field w nameField)).
  { intros w Hw Hnw.
    assert (Hin : w ∈ group_of (field w nameField) elements).
    { apply list_elem_of_filter. split; [|done]. split; [done|].
      by apply recordKey_name_only. }
    pose proof (Result_lookup _ _ _ _ Hdata _ _ (field w nameField) Hres)
      as Hl.
    destruct (group_of (field w nameField) elements) as [|first rest] eqn:Hg;
      [by apply elem_of_nil in Hin|].
    cbn [groupContact fmap option_fmap option_map] in Hl.
    eexists. split; [exact Hl|]. cbn [contactObject r_name c_name].
    assert (Hf : first ∈ group_of (field w nameField) elements)
      by (rewrite Hg; by left).
    apply list_elem_of_filter in Hf as [[Hnf Hkf] _].
    rewrite recordKey_name_only in Hkf by done.
    unfold recordName. by rewrite Hkf. }
  destruct (Hat u Hu Hnu) as (ou & Hou & Hru).
  destruct (Hat v Hv) as (ov & Hov & Hrv); [by rewrite Hnv|].
  exists ou, ov. repeat split; [done..|]. by rewrite Hrv, Hru.
Qed.

Lemma loop_size i (l : list (gmap string string)) st :
  (size (seen (loop data groupByFields labelFields variableFields i l st))
   ≤ size (seen st) + length l)%nat.
Proof.
  revert i st. induction l as [|v l IH]; intros i st; simpl; [lia|].
  etrans; [apply IH|].
  destruct (decide (recordName data v = EmptyString)) as [Hn|Hn].
  - rewrite loopBody_skip by done. simpl. lia.
  - rewrite loopBody_seen by done.
    destruct (seen st !! recordKey data groupByFields v) as [c|] eqn:Hk.
    + rewrite map_size_insert_Some by by rewrite Hk. lia.
    + rewrite map_size_insert_None by done. lia.
Qed.

(** X16 (no rows, or none with a name).  Without rows [Run] returns the
    empty map, without error or warning.  The result is empty exactly when
    every row is skipped, and it never has more contacts than there are
    rows. *)
Theorem X16_empty_result (elements : list (gmap string string))
    (res : gmap string returnObject) :
  decoded_mapping →
  Result (Run elements data) = Some res →
  Run [] data = {| Error := None; Result := Some ∅; Logged := [] |}
  ∧ (res = ∅
     ↔ Forall (λ v, stripSpaces (field v nameField) = EmptyString) elements)
  ∧ (size res ≤ length elements)%nat.
Proof.
  intros Hdata Hres. split; [|split].
  - rewrite (Run_decoded _ _ _ _ Hdata). cbn [loop seen logged].
    by rewrite fmap_empty.
  - split.
    + intros ->. apply list.Forall_forall. intros v Hv.
      destruct (decide (stripSpaces (field v nameField) = EmptyString))
        as [|Hn]; [done|]. exfalso.
      pose proof (Result_lookup _ _ _ _ Hdata _ _
                    (recordKey data groupByFields v) Hres) as Hl.
      rewrite lookup_empty in Hl.
      destruct (group_of _ elements) eqn:Hg; [|done].
      eapply (filter_nil_not_elem_of _ _ v Hg); [|done]. by split.
    + intros Hall. apply map_eq. intros k.
      rewrite (Result_lookup _ _ _ _ Hdata _ _ k Hres), lookup_empty.
      replace (group_of k elements) with (@nil (gmap string string));
        [done|].
      symmetry. unfold group. clear Hres.
      induction Hall as [|v l Hv _ IH]; [done|].
      rewrite filter_cons_False; [done|]. unfold recordName. tauto.
  - rewrite (Run_decoded _ _ _ _ Hdata) in Hres. injection Hres as <-.
    rewrite map_size_fmap.
    etrans; [apply loop_size|]. cbn [seen]. by rewrite map_size_empty.
Qed.

End Results.

(** ** [Run]: the log *)

Lemma setVariables_log_none variableFields v
    (vars : gmap string string) log :
  NoDup variableFields →
  (∀ f, f ∈ variableFields → vars !! f = None) →
  (setVariables variableFields v (vars, log)).2 = log.
Proof.
  unfold setVariables. intros Hnd. revert vars log.
  induction Hnd as [|f l Hf Hnd IH]; intros vars log Hnone; [done|].
  cbn [fold_left]. rewrite decide_False.
  - apply IH. intros g Hg. rewrite lookup_insert_ne; [|by intros ->].
    apply Hnone. by right.
  - rewrite Hnone by by left. by intros [? ?].
Qed.

Lemma loopBody_logged_row data groupByFields labelFields variableFields
    i v (before : list (gmap string string)) :
  NoDup variableFields →
  logged (loopBody data groupByFields labelFields variableFields i v
            (loop data groupByFields labelFields variableFields 0 before
                  {| seen := ∅; logged := [] |}))
  = logged (loop data groupByFields labelFields variableFields 0 before
                 {| seen := ∅; logged := [] |})
    ++ rowWarnings data groupByFields variableFields i v before.
Proof.
  intros Hnd. unfold rowWarnings.
  destruct (decide (recordName data v = EmptyString)) as [Hn|Hn].
  { by rewrite loopBody_skip. }
  pose proof (loop_seen data groupByFields labelFields variableFields
                before (recordKey data groupByFields v)) as Hs.
  set (st := loop _ _ _ _ 0 before _) in *.
  unfold loopBody. unfold recordName in Hn. rewrite decide_False by done.
  cbn zeta. unfold recordKey, recordName in Hs. rewrite Hs. unfold seenAt.
  destruct (group data groupByFields _ before) as [|u g] eqn:Hg.
  - cbn [groupContact]. rewrite lookup_insert_eq. cbn [default].
    unfold id. cbn [c_variables].
    pose proof (setVariables_log_none variableFields v ∅ (logged st) Hnd)
      as Hlog.
    destruct (setVariables variableFields v (∅, logged st)) as [vars log].
    cbn [logged snd] in *. rewrite Hlog, decide_True, ?app_nil_r; try done.
  - destruct (nonempty_snoc (u :: g)) as (earlier & last & Hl); [done|].
    cbn [groupContact]. rewrite Hs.
    cbn [groupContact default]. unfold id. cbn [c_variables].
    pose proof (setVariables_log_all variableFields v
                  (fold_left (λ vars v0, setVars variableFields v0 vars)
                             (u :: g) ∅) (logged st)) as Hlog.
    destruct (setVariables variableFields v _) as [vars log].
    cbn [logged snd] in *. rewrite decide_False by done. apply Hlog.
    intros f Hf. rewrite Hl, groupVars_lookup, decide_True by done.
    by eexists.
Qed.

(** X17 (the log).  When no variable field is declared twice, the log of
    [Run] is, row after row in input order: for a skipped row, one warning
    with the index of the row; for a row whose group has a row already,
    one warning for every variable field; nothing for a row that starts a
    group.  A run over rows that all have a name and different keys logs
    nothing. *)
Theorem X17_log (data : UniqueContactModel)
    (groupByFields labelFields variableFields : list string)
    (elements : list (gmap string string)) :
  decodes data groupByFields labelFields variableFields →
  NoDup variableFields →
  Logged (Run elements data)
  = concat (imap (λ i v, rowWarnings data groupByFields variableFields
                           i v (take i elements))
                 elements).
Proof.
  intros Hdata Hnd. rewrite (Run_decoded _ _ _ _ Hdata). cbn [Logged].
  induction elements as [|v l IH] using rev_ind; [done|].
  rewrite loop_app. cbn [loop]. rewrite loopBody_logged_row by done.
  rewrite IH, imap_app, concat_app. cbn [imap concat].
  rewrite app_nil_r, Nat.add_0_r, take_app_length. f_equal. f_equal.
  apply imap_ext. intros i w Hw. simpl.
  rewrite take_app_le; [done|].
  apply lookup_lt_Some in Hw. lia.
Qed.

Lemma X17_log_witness :
  (decodes scenario_mapping ["id"] ["l1"; "l2"] ["x"; "y"]
   ∧ NoDup ["x"; "y"])
  ∧ Logged (Run scenario_csv scenario_mapping)
    = concat (imap (λ i v, rowWarnings scenario_mapping ["id"] ["x"; "y"]
                             i v (take i scenario_csv))
                   scenario_csv)
  ∧ concat (imap (λ i v, rowWarnings scenario_mapping ["id"] ["x"; "y"]
                           i v (take i scenario_csv))
                 scenario_csv)
    = [ WarnEmptyName 1 ""; WarnOverwrite "x"; WarnOverwrite "y";
        WarnOverwrite "x"; WarnOverwrite "y" ].
Proof.
  assert (Hnd : NoDup ["x"; "y"]) by compute_done.
  split; [exact (conj scenario_decodes Hnd)|].
  split; [|compute_done].
  exact (X17_log scenario_mapping ["id"] ["l1"; "l2"] ["x"; "y"]
           scenario_csv scenario_decodes Hnd).
Defined.

(** ** The further properties on concrete inputs *)

Lemma scenario_lookup_7 : scenario_result !! "7" = Some scenario_contact_7.
Proof. compute_done. Defined.

Lemma names_decodes : decodes names_mapping ["name"] [] [].
Proof. repeat split. Defined.

Lemma names_Result :
  Result (Run names_csv names_mapping) = Some names_result.
Proof. compute_done. Defined.

(** X11 on the scenario: Bob's row (group ["7"]) and Carol's (group ["8"])
    change places. *)
Lemma X11_group_order_witness :
  let before := take 2 scenario_csv in
  let u : gmap string string :=
    list_to_map [("name", "Bob"); ("id", "7"); ("code", "2");
                 ("destination", "1-2-3"); ("l1", "a"); ("l2", "c");
                 ("x", "v2")] in
  let v : gmap string string :=
    list_to_map [("name", "Carol"); ("id", "8"); ("code", "9");
                 ("destination", "n/a"); ("l1", "a"); ("l2", "a");
                 ("x", "v3"); ("y", "w3")] in
  let after := drop 4 scenario_csv in
  (before ++ u :: v :: after = scenario_csv
   ∧ recordKey scenario_mapping ["id"] u ≠ recordKey scenario_mapping ["id"] v)
  ∧ Result (Run (before ++ u :: v :: after) scenario_mapping)
    = Result (Run (before ++ v :: u :: after) scenario_mapping).
Proof.
  intros before u v after.
  assert (H0 : before ++ u :: v :: after = scenario_csv) by compute_done.
  assert (H1 : recordKey scenario_mapping ["id"] u
               ≠ recordKey scenario_mapping ["id"] v) by compute_done.
  split; [exact (conj H0 H1)|].
  exact (proj2 (X11_group_order scenario_mapping ["id"] ["l1"; "l2"]
                  ["x"; "y"] scenario_decodes)
           before u v after (or_intror (or_intror H1))).
Defined.

(** X12 on the scenario: the group ["7"] has two rows and one
    destination. *)
Lemma X12_destinations_witness :
  (Result (Run scenario_csv scenario_mapping) = Some scenario_result
   ∧ scenario_result !! "7" = Some scenario_contact_7)
  ∧ NoDup (destination <$> r_destinations scenario_contact_7)
  ∧ (1 ≤ length (r_destinations scenario_contact_7)
     ≤ length (group scenario_mapping ["id"] "7" scenario_csv))%nat.
Proof.
  split; [exact (conj scenario_Result scenario_lookup_7)|].
  destruct (X12_destinations scenario_mapping ["id"] ["l1"; "l2"] ["x"; "y"]
              scenario_csv scenario_result "7" scenario_contact_7
              scenario_decodes scenario_Result scenario_lookup_7)
    as (Hnd & _ & _ & Hlen).
  split; [exact Hnd | exact Hlen].
Defined.

(** X13 on the scenario: the name ["Alice A"], from ["Alice  A"]. *)
Lemma X13_names_witness :
  (Result (Run scenario_csv scenario_mapping) = Some scenario_result
   ∧ scenario_result !! "7" = Some scenario_contact_7)
  ∧ r_name scenario_contact_7 ≠ EmptyString
  ∧ stripSpaces (r_name scenario_contact_7) = r_name scenario_contact_7
  ∧ "7" ≠ EmptyString.
Proof.
  split; [exact (conj scenario_Result scenario_lookup_7)|].
  exact (X13_names scenario_mapping ["id"] ["l1"; "l2"] ["x"; "y"]
           scenario_csv scenario_result "7" scenario_contact_7
           scenario_decodes scenario_Result scenario_lookup_7).
Defined.

(** X14 on the scenario: the labels of the group ["7"]. *)
Lemma X14_labels_witness :
  (Result (Run scenario_csv scenario_mapping) = Some scenario_result
   ∧ scenario_result !! "7" = Some scenario_contact_7)
  ∧ ("c" ∈ r_labels scenario_contact_7
     ↔ ∃ v f, v ∈ group scenario_mapping ["id"] "7" scenario_csv
              ∧ f ∈ ["l1"; "l2"] ∧ field v f = "c")
  ∧ (r_labels scenario_contact_7 = [] ↔ ["l1"; "l2"] = []).
Proof.
  split; [exact (conj scenario_Result scenario_lookup_7)|].
  destruct (X14_labels scenario_mapping ["id"] ["l1"; "l2"] ["x"; "y"]
              scenario_csv scenario_result "7" scenario_contact_7
              scenario_decodes scenario_Result scenario_lookup_7)
    as (Hmem & _ & Hnil).
  split; [exact (Hmem "c") | exact Hnil].
Defined.

(** X15 on two rows named ["Ann  B"] and ["Ann B"]. *)
Lemma X15_raw_name_keys_witness :
  let u : gmap string string :=
    list_to_map [("name", "Ann  B"); ("code", "1"); ("destination", "100")] in
  let v : gmap string string :=
    list_to_map [("name", "Ann B"); ("code", "1"); ("destination", "200")] in
  (Result (Run names_csv names_mapping) = Some names_result
   ∧ u ∈ names_csv ∧ v ∈ names_csv
   ∧ stripSpaces (field u "name") ≠ EmptyString
   ∧ stripSpaces (field v "name") = stripSpaces (field u "name")
   ∧ field u "name" ≠ field v "name")
  ∧ ∃ ou ov,
      names_result !! field u "name" = Some ou
      ∧ names_result !! field v "name" = Some ov
      ∧ r_name ou = stripSpaces (field u "name")
      ∧ r_name ov = r_name ou.
Proof.
  intros u v.
  assert (H1 : u ∈ names_csv) by apply list_elem_of_here.
  assert (H2 : v ∈ names_csv)
    by apply list_elem_of_further, list_elem_of_here.
  assert (H3 : stripSpaces (field u "name") ≠ EmptyString) by compute_done.
  assert (H4 : stripSpaces (field v "name") = stripSpaces (field u "name"))
    by compute_done.
  assert (H5 : field u "name" ≠ field v "name") by compute_done.
  split; [exact (conj names_Result (conj H1 (conj H2 (conj H3 (conj H4 H5)))))|].
  exact (X15_raw_name_keys names_mapping ["name"] [] [] names_csv
           names_result u v eq_refl names_decodes names_Result
           H1 H2 H3 H4 H5).
Defined.

(** X16 on the scenario: five rows, two contacts. *)
Lemma X16_empty_result_witness :
  Result (Run scenario_csv scenario_mapping) = Some scenario_result
  ∧ Run [] scenario_mapping
    = {| Error := None; Result := Some ∅; Logged := [] |}
  ∧ (size scenario_result ≤ length scenario_csv)%nat.
Proof.
  split; [exact scenario_Result|].
  destruct (X16_empty_result scenario_mapping ["id"] ["l1"; "l2"] ["x"; "y"]
              scenario_csv scenario_result scenario_decodes scenario_Result)
    as (Hempty & _ & Hsize).
  split; [exact Hempty | exact Hsize].
Defined.
